(** * Structural hashing of [aiida.common.hashing]

    A shallow embedding of [make_hash] and of the handlers registered on
    [_make_hash], together with the parts of the Python runtime they call
    (BLAKE2b from [hashlib], [str.encode], [format], [sorted], [datetime]).
    The embedding fixes a Python 3 interpreter: [six.PY2] is [False],
    [six.binary_type] is [bytes] and [six.text_type] is [str]. *)

From Stdlib Require Import Strings.String Strings.Ascii Strings.Byte.
From Stdlib Require Import ZArith NArith List Bool Lia.
From Stdlib Require Import Sorting.Permutation Sorting.Sorted.
From Stdlib Require Import Floats.SpecFloat.
Import ListNotations.

Local Open Scope Z_scope.

(** ** BLAKE2b (RFC 7693) with the tree parameters of [hashlib.blake2b] *)

Module Blake2b.

Definition mask64 : Z := 18446744073709551615.

Definition add64 (a b : Z) : Z := Z.land (a + b) mask64.

Definition rotr64 (x n : Z) : Z :=
  Z.land (Z.lor (Z.shiftr x n) (Z.shiftl x (64 - n))) mask64.

Definition IV : list Z :=
  [ 0x6a09e667f3bcc908; 0xbb67ae8584caa73b; 0x3c6ef372fe94f82b;
    0xa54ff53a5f1d36f1; 0x510e527fade682d1; 0x9b05688c2b3e6c1f;
    0x1f83d9abfb41bd6b; 0x5be0cd19137e2179 ].

Definition SIGMA : list (list nat) :=
  [ [ 0; 1; 2; 3; 4; 5; 6; 7; 8; 9; 10; 11; 12; 13; 14; 15 ];
    [ 14; 10; 4; 8; 9; 15; 13; 6; 1; 12; 0; 2; 11; 7; 5; 3 ];
    [ 11; 8; 12; 0; 5; 2; 15; 13; 10; 14; 3; 6; 7; 1; 9; 4 ];
    [ 7; 9; 3; 1; 13; 12; 11; 14; 2; 6; 5; 10; 4; 0; 15; 8 ];
    [ 9; 0; 5; 7; 2; 4; 10; 15; 14; 1; 11; 12; 6; 8; 3; 13 ];
    [ 2; 12; 6; 10; 0; 11; 8; 3; 4; 13; 7; 5; 15; 14; 1; 9 ];
    [ 12; 5; 1; 15; 14; 13; 4; 10; 0; 7; 6; 3; 9; 2; 8; 11 ];
    [ 13; 11; 7; 14; 12; 1; 3; 9; 5; 0; 15; 4; 8; 6; 2; 10 ];
    [ 6; 15; 14; 9; 11; 3; 0; 8; 12; 2; 13; 7; 1; 4; 10; 5 ];
    [ 10; 2; 8; 4; 7; 6; 1; 5; 15; 11; 9; 14; 3; 12; 13; 0 ] ]%nat.

Definition get (v : list Z) (i : nat) : Z := nth i v 0.

Fixpoint set (i : nat) (x : Z) (v : list Z) : list Z :=
  match v, i with
  | [], _ => []
  | _ :: r, O => x :: r
  | y :: r, S j => y :: set j x r
  end.

Definition G (v : list Z) (a b c d : nat) (x y : Z) : list Z :=
  let va := add64 (add64 (get v a) (get v b)) x in
  let vd := rotr64 (Z.lxor (get v d) va) 32 in
  let vc := add64 (get v c) vd in
  let vb := rotr64 (Z.lxor (get v b) vc) 24 in
  let va := add64 (add64 va vb) y in
  let vd := rotr64 (Z.lxor vd va) 16 in
  let vc := add64 vc vd in
  let vb := rotr64 (Z.lxor vb vc) 63 in
  set a va (set b vb (set c vc (set d vd v))).

Definition round (m : list Z) (v : list Z) (r : nat) : list Z :=
  let s := nth (r mod 10) SIGMA [] in
  let w i := get m (nth i s O) in
  let v := G v 0 4 8 12 (w 0%nat) (w 1%nat) in
  let v := G v 1 5 9 13 (w 2%nat) (w 3%nat) in
  let v := G v 2 6 10 14 (w 4%nat) (w 5%nat) in
  let v := G v 3 7 11 15 (w 6%nat) (w 7%nat) in
  let v := G v 0 5 10 15 (w 8%nat) (w 9%nat) in
  let v := G v 1 6 11 12 (w 10%nat) (w 11%nat) in
  let v := G v 2 7 8 13 (w 12%nat) (w 13%nat) in
  G v 3 4 9 14 (w 14%nat) (w 15%nat).

(** Little-endian packing of bytes into 64-bit words and back. *)

Fixpoint le_word (bs : list byte) : Z :=
  match bs with
  | [] => 0
  | b :: r => Z.of_N (Byte.to_N b) + 256 * le_word r
  end.

Fixpoint le_words (n : nat) (bs : list byte) : list Z :=
  match n with
  | O => []
  | S k => le_word (firstn 8 bs) :: le_words k (skipn 8 bs)
  end.

Definition byte_of_Z (z : Z) : byte :=
  match Byte.of_N (Z.to_N (Z.land z 255)) with
  | Some b => b
  | None => x00
  end.

Fixpoint le_bytes (n : nat) (w : Z) : list byte :=
  match n with
  | O => []
  | S k => byte_of_Z w :: le_bytes k (Z.shiftr w 8)
  end.

(** The compression function F: [t] is the byte counter, [last] the
    finalisation flag f0 and [last_node] the flag f1. *)

Definition compress (h : list Z) (block : list byte) (t : Z)
    (last last_node : bool) : list Z :=
  let m := le_words 16 block in
  let v := h ++ IV in
  let v := set 12 (Z.lxor (get v 12) (Z.land t mask64)) v in
  let v := set 13 (Z.lxor (get v 13) (Z.shiftr t 64)) v in
  let v := if last then set 14 (Z.lxor (get v 14) mask64) v else v in
  let v := if last && last_node then set 15 (Z.lxor (get v 15) mask64) v
           else v in
  let v := fold_left (round m) (seq 0 12) v in
  map (fun i => Z.lxor (Z.lxor (get h i) (get v i)) (get v (i + 8)))
      (seq 0 8).

(** The keyword arguments of [hashlib.blake2b] that the module sets; key
    and salt are never given and stay empty. *)

Record params := {
  digest_size : Z;
  person : list byte;
  fanout : Z;
  depth : Z;
  leaf_size : Z;
  node_offset : Z;
  node_depth : Z;
  inner_size : Z;
  last_node : bool
}.

Definition param_words (p : params) : list Z :=
  [ digest_size p + Z.shiftl (fanout p) 16 + Z.shiftl (depth p) 24
      + Z.shiftl (leaf_size p) 32;
    node_offset p;
    node_depth p + Z.shiftl (inner_size p) 8;
    0; 0; 0;
    le_word (firstn 8 (person p));
    le_word (firstn 8 (skipn 8 (person p))) ].

Definition init (p : params) : list Z :=
  map (fun i => Z.lxor (get IV i) (get (param_words p) i)) (seq 0 8).

Fixpoint absorb (fuel : nat) (p : params) (h : list Z) (t : Z)
    (data : list byte) : list Z :=
  match fuel with
  | O => h
  | S k =>
      if (128 <? Z.of_nat (length data)) then
        absorb k p (compress h (firstn 128 data) (t + 128) false false)
               (t + 128) (skipn 128 data)
      else
        compress h data (t + Z.of_nat (length data)) true (last_node p)
  end.

Definition blake2b (p : params) (data : list byte) : list byte :=
  let h := absorb (S (length data)) p (init p) 0 data in
  firstn (Z.to_nat (digest_size p)) (flat_map (le_bytes 8) h).

End Blake2b.

Definition hex_digit (n : N) : ascii :=
  nth (N.to_nat n) (list_ascii_of_string "0123456789abcdef") "0"%char.

Fixpoint hexlify (bs : list byte) : string :=
  match bs with
  | [] => EmptyString
  | b :: r =>
      String (hex_digit (N.div (Byte.to_N b) 16))
        (String (hex_digit (N.modulo (Byte.to_N b) 16)) (hexlify r))
  end.

Definition bytes_of_string (s : string) : list byte := list_byte_of_string s.

(** ** The Python runtime the module relies on *)

(** Exceptions that can escape the hashing functions. *)
Inductive exception :=
| ValueError
| UnicodeEncodeError
| OverflowError.

Inductive result (A : Type) :=
| Ok (a : A)
| Raise (e : exception).

Arguments Ok {A} a.
Arguments Raise {A} e.

Definition bind {A B : Type} (r : result A) (k : A -> result B) : result B :=
  match r with
  | Ok a => k a
  | Raise e => Raise e
  end.

Notation "x <- r ;; k" := (bind r (fun x => k))
  (at level 61, r at next level, right associativity).

(** Evaluation of a list of computations from left to right, stopping at
    the first exception: what consuming a generator does. *)
Fixpoint collect {A : Type} (rs : list (result A)) : result (list A) :=
  match rs with
  | [] => Ok []
  | r :: rest => a <- r ;; l <- collect rest ;; Ok (a :: l)
  end.

(** A [str] is a sequence of code points; [bytes] a sequence of bytes. *)
Definition text := list N.
Definition bytes := list byte.

Definition text_of_string (s : string) : text :=
  map Byte.to_N (list_byte_of_string s).

Definition byte_of_N (n : N) : byte :=
  match Byte.of_N n with
  | Some b => b
  | None => x00
  end.

(** [c.encode('utf-8')] for one code point, with the default strict error
    handler: surrogates are refused. *)
Definition utf8_char (c : N) : result bytes :=
  (if c <? 0x80 then Ok [byte_of_N c]
   else if c <? 0x800 then
     Ok [byte_of_N (0xC0 + c / 64); byte_of_N (0x80 + c mod 64)]
   else if (0xD800 <=? c) && (c <=? 0xDFFF) then Raise UnicodeEncodeError
   else if c <? 0x10000 then
     Ok [byte_of_N (0xE0 + c / 4096); byte_of_N (0x80 + (c / 64) mod 64);
         byte_of_N (0x80 + c mod 64)]
   else if c <? 0x110000 then
     Ok [byte_of_N (0xF0 + c / 262144); byte_of_N (0x80 + (c / 4096) mod 64);
         byte_of_N (0x80 + (c / 64) mod 64); byte_of_N (0x80 + c mod 64)]
   else Raise UnicodeEncodeError)%N.

Definition encode_utf8 (s : text) : result bytes :=
  cs <- collect (map utf8_char s) ;; Ok (concat cs).

(** [u"{}".format(n)] for an integer: its decimal digits. Interpreters
    that limit the number of digits of this conversion (CPython from
    3.11 on) raise [ValueError] beyond the limit; the functions below are
    the conversion within it, see [int_in_limit]. *)
Fixpoint decimal_fuel (fuel : nat) (n : Z) (acc : text) : text :=
  match fuel with
  | O => acc
  | S k =>
      let acc' := (48 + Z.to_N (n mod 10))%N :: acc in
      if n <? 10 then acc' else decimal_fuel k (n / 10) acc'
  end.

Definition decimal (n : Z) : text :=
  decimal_fuel (S (Z.to_nat (Z.log2 n))) n [].

Definition format_int (n : Z) : text :=
  if n <? 0 then 45%N :: decimal (- n) else decimal n.

(** *** Floats: [format(x, '.{p}g')] on a binary64 value *)

(** The largest [x] with [d * 10^x <= n], searched upwards from [x]. *)
Fixpoint exp10_up (fuel : nat) (n d x : Z) : Z :=
  match fuel with
  | O => x
  | S k => if d * 10 ^ (x + 1) <=? n then exp10_up k n d (x + 1) else x
  end.

(** The smallest [k] with [d <= n * 10^k], searched upwards from [k]. *)
Fixpoint exp10_down (fuel : nat) (n d k : Z) : Z :=
  match fuel with
  | O => k
  | S f => if d <=? n * 10 ^ k then k else exp10_down f n d (k + 1)
  end.

(** floor (log10 (n / d)) for positive [n] and [d]. *)
Definition floor_log10 (n d : Z) : Z :=
  if d <=? n then exp10_up (S (Z.to_nat (Z.log2 n))) n d 0
  else - exp10_down (S (Z.to_nat (Z.log2 d))) n d 1.

(** Round [num / den] to the nearest integer, ties to even. *)
Definition round_half_even (num den : Z) : Z :=
  let q := num / den in
  let r := num mod den in
  match 2 * r ?= den with
  | Lt => q
  | Gt => q + 1
  | Eq => if Z.even q then q else q + 1
  end.

Fixpoint strip_zeros (fuel : nat) (d : Z) : Z :=
  match fuel with
  | O => d
  | S k => if (d mod 10 =? 0) && (0 <? d) then strip_zeros k (d / 10) else d
  end.

Definition zeros (k : Z) : text := repeat 48%N (Z.to_nat k).

(** The significant digits (trailing zeros removed) and the position of
    the decimal point of [n / d] rounded to [p] significant digits. *)
Definition dtoa (p n d : Z) : text * Z :=
  let x := floor_log10 n d in
  let s := p - 1 - x in
  let m := if 0 <=? s then round_half_even (n * 10 ^ s) d
           else round_half_even n (d * 10 ^ (- s)) in
  let '(m, x) := if m =? 10 ^ p then (10 ^ (p - 1), x + 1) else (m, x) in
  (decimal (strip_zeros (Z.to_nat p) m), x + 1).

Definition format_exponent (e : Z) : text :=
  let sign := if e <? 0 then 45%N else 43%N in
  let ds := decimal (Z.abs e) in
  101%N :: sign :: (if Z.abs e <? 10 then 48%N :: ds else ds).

Definition format_g_finite (p n d : Z) : text :=
  let '(digits, decpt) := dtoa p n d in
  let nd := Z.of_nat (length digits) in
  if (decpt <=? -4) || (p <? decpt) then
    firstn 1 digits
      ++ (if 1 <? nd then 46%N :: skipn 1 digits else [])
      ++ format_exponent (decpt - 1)
  else if decpt <=? 0 then
    48%N :: 46%N :: zeros (- decpt) ++ digits
  else if nd <=? decpt then
    digits ++ zeros (decpt - nd)
  else
    firstn (Z.to_nat decpt) digits ++ 46%N :: skipn (Z.to_nat decpt) digits.

Definition format_g (p : N) (x : spec_float) : text :=
  let p := if (p =? 0)%N then 1 else Z.of_N p in
  let sign (s : bool) : text := if s then [45%N] else [] in
  match x with
  | S754_nan => text_of_string "nan"
  | S754_infinity s => sign s ++ text_of_string "inf"
  | S754_zero s => sign s ++ text_of_string "0"
  | S754_finite s m e =>
      sign s ++
      (if 0 <=? e then format_g_finite p (Z.pos m * 2 ^ e) 1
       else format_g_finite p (Z.pos m) (2 ^ (- e)))
  end.

(** True division of two integers, correctly rounded to binary64. *)
Definition float_of_int_exact (z : Z) : spec_float :=
  match z with
  | Z0 => S754_zero false
  | Zpos p => S754_finite false p 0
  | Zneg p => S754_finite true p 0
  end.

Definition int_true_divide (a b : Z) : spec_float :=
  SFdiv 53 1024 (float_of_int_exact a) (float_of_int_exact b).

(** *** Comparisons and [sorted] *)

Fixpoint lex_compare {A : Type} (cmp : A -> A -> comparison)
    (l1 l2 : list A) : comparison :=
  match l1, l2 with
  | [], [] => Eq
  | [], _ :: _ => Lt
  | _ :: _, [] => Gt
  | a :: r1, b :: r2 =>
      match cmp a b with
      | Eq => lex_compare cmp r1 r2
      | c => c
      end
  end.

Definition byte_compare (a b : byte) : comparison :=
  N.compare (Byte.to_N a) (Byte.to_N b).

(** Order of [bytes] objects, of lists of [bytes] objects, and of [str]. *)
Definition bytes_compare : bytes -> bytes -> comparison :=
  lex_compare byte_compare.
Definition bytes_list_compare : list bytes -> list bytes -> comparison :=
  lex_compare bytes_compare.
Definition text_compare : text -> text -> comparison :=
  lex_compare N.compare.

(** [sorted(l, key=key)]: a stable sort that only asks whether one key is
    less than another. [insert] puts [x], which precedes the elements of
    [l] in the input, before the first element whose key is not smaller. *)
Section Sorted.
Context {A K : Type} (cmp : K -> K -> comparison) (key : A -> K).

Fixpoint insert (x : A) (l : list A) : list A :=
  match l with
  | [] => [x]
  | y :: r =>
      match cmp (key y) (key x) with
      | Lt => y :: insert x r
      | _ => x :: l
      end
  end.

Fixpoint sorted (l : list A) : list A :=
  match l with
  | [] => []
  | x :: r => insert x (sorted r)
  end.
End Sorted.

(** *** [datetime] *)

(** A [tzinfo] object, seen through the offset (a [timedelta], in
    microseconds) that its [utcoffset] method gives for the datetime it is
    attached to; the method may return [None]. *)
Record timezone := { tz_utcoffset : option Z }.

Definition utc : timezone := {| tz_utcoffset := Some 0 |}.

Record datetime := {
  year : Z;
  month : Z;
  day : Z;
  hour : Z;
  minute : Z;
  second : Z;
  microsecond : Z;
  tzinfo : option timezone
}.

Definition utcoffset (d : datetime) : option Z :=
  match tzinfo d with
  | None => None
  | Some tz => tz_utcoffset tz
  end.

Definition replace_tzinfo (d : datetime) (tz : option timezone) : datetime :=
  {| year := year d; month := month d; day := day d; hour := hour d;
     minute := minute d; second := second d; microsecond := microsecond d;
     tzinfo := tz |}.

Definition _is_leap (y : Z) : bool :=
  (y mod 4 =? 0) && (negb (y mod 100 =? 0) || (y mod 400 =? 0)).

Definition _days_before_year (y : Z) : Z :=
  let y := y - 1 in y * 365 + y / 4 - y / 100 + y / 400.

Definition _DAYS_BEFORE_MONTH : list Z :=
  [-1; 0; 31; 59; 90; 120; 151; 181; 212; 243; 273; 304; 334].

Definition _days_before_month (y m : Z) : Z :=
  nth (Z.to_nat m) _DAYS_BEFORE_MONTH 0
  + (if (2 <? m) && _is_leap y then 1 else 0).

Definition _ymd2ord (y m d : Z) : Z :=
  _days_before_year y + _days_before_month y m + d.

Definition toordinal (d : datetime) : Z := _ymd2ord (year d) (month d) (day d).

(** The wall-clock reading of [d] in microseconds since the midnight that
    starts ordinal day 0. *)
Definition wall_microseconds (d : datetime) : Z :=
  ((toordinal d * 86400 + hour d * 3600 + minute d * 60 + second d) * 1000000)
  + microsecond d.

(** [timedelta.total_seconds()], the timedelta given in microseconds. *)
Definition total_seconds (td : Z) : spec_float := int_true_divide td 1000000.

Definition _EPOCH : datetime :=
  {| year := 1970; month := 1; day := 1; hour := 0; minute := 0;
     second := 0; microsecond := 0; tzinfo := Some utc |}.

(** [a - b] for two aware datetimes, as a timedelta in microseconds. *)
Definition aware_sub (a b : datetime) (offa offb : Z) : Z :=
  wall_microseconds a - wall_microseconds b + offb - offa.

(** [val.timestamp()]: an aware value is measured from [_EPOCH]; a naive
    one is read in the local time zone of the machine, which lies
    [local_utcoffset val] microseconds east of UTC. *)
Definition timestamp (local_utcoffset : datetime -> Z) (val : datetime)
    : spec_float :=
  match utcoffset val with
  | Some off => total_seconds (aware_sub val _EPOCH off 0)
  | None =>
      total_seconds
        (wall_microseconds val - local_utcoffset val - wall_microseconds _EPOCH)
  end.

(** [d - td] for a naive datetime (given by its wall-clock microseconds)
    and a timedelta: the result must lie in years 1 to 9999. *)
Definition naive_sub_timedelta (wall td : Z) : result Z :=
  let r := wall - td in
  if (86400000000 <=? r) && (r <? 3652060 * 86400000000) then Ok r
  else Raise OverflowError.

(** [uuid.UUID.bytes]: the 128-bit integer, big-endian. *)
Definition uuid_bytes (int : Z) : bytes := rev (Blake2b.le_bytes 16 int).

(** ** Values handed to [make_hash] *)

#[local] Unset Elimination Schemes.

(** Modelled from the spec: the class [Folder] of [aiida.common.folders]
    is not among the sources. The spec has a folder be a recursive tree
    of named files and subfolders; the handler reads it through
    [get_content_list], [open] and [get_subfolder]. Here the content of a
    folder is what [get_content_list] lists, in listing order, each name
    with the bytes [open(name).read()] gives or the content of the
    subfolder [get_subfolder(name)] gives. *)
Inductive fs_entry :=
| File (data : bytes)
| Dir (content : list (text * fs_entry)).

(** Python objects by the type that [singledispatch] selects a handler on:
    instances of [NoneType], [bool], [int], [float], [complex], [str],
    [bytes], [bytearray], [list], [tuple], [set] or [frozenset], [dict],
    [OrderedDict], [datetime], [UUID] and [Folder]. A set or a dict carries
    its entries in iteration order. [VObject] is an object of a type for
    which no handler is registered. Objects of other types that a
    registered abstract class covers ([Fraction] under [numbers.Real],
    [range] under [abc.Sequence], ...) are not among these values. *)
Inductive value :=
| VNone
| VBool (b : bool)
| VInt (n : Z)
| VFloat (x : spec_float)
| VComplex (real imag : spec_float)
| VStr (s : text)
| VBytes (b : bytes)
| VBytearray (b : bytes)
| VList (l : list value)
| VTuple (l : list value)
| VSet (l : list value)
| VDict (items : list (value * value))
| VOrderedDict (items : list (value * value))
| VDatetime (d : datetime)
| VUUID (int : Z)
| VFolder (content : list (text * fs_entry))
| VObject.

#[local] Set Elimination Schemes.

(** The keyword arguments of a call: a setting of the two keywords that
    handlers read and of [float_precision], which stands for a keyword
    that the caller passes along with them. Keywords of other names are
    not modelled; one that is the name of the first parameter of a
    handler ([val], [mapping], ...) makes the call raise [TypeError]. *)
Record kwargs := {
  odict_as_unordered : bool;
  ignored_folder_content : list text;
  float_precision : option N
}.

(** A call without keyword arguments: [kwargs.get] gives the defaults. *)
Definition no_kwargs : kwargs :=
  {| odict_as_unordered := false; ignored_folder_content := [];
     float_precision := None |}.

Definition PY2 : bool := false.

(** ** The hashing functions *)

Definition BLAKE2B_OPTIONS (person : bytes) (node_depth : Z)
    (last_node : bool) : Blake2b.params :=
  {| Blake2b.digest_size := 32;
     Blake2b.person := person;
     Blake2b.fanout := 0;
     Blake2b.depth := 2;
     Blake2b.leaf_size := 0;
     Blake2b.node_offset := 0;
     Blake2b.node_depth := node_depth;
     Blake2b.inner_size := 64;
     Blake2b.last_node := last_node |}.

(** A [blake2b] object: its parameters and the data fed so far. *)
Record blake2b_obj := {
  obj_params : Blake2b.params;
  obj_data : bytes
}.

Definition update (h : blake2b_obj) (data : bytes) : blake2b_obj :=
  {| obj_params := obj_params h; obj_data := obj_data h ++ data |}.

Definition digest (h : blake2b_obj) : bytes :=
  Blake2b.blake2b (obj_params h) (obj_data h).

Definition hexdigest (h : blake2b_obj) : string := hexlify (digest h).

Definition _single_digest (obj_type : string) (obj_bytes : bytes) : bytes :=
  digest {| obj_params := BLAKE2B_OPTIONS (bytes_of_string obj_type) 0 false;
            obj_data := obj_bytes |}.

Definition _END_DIGEST : bytes := Eval vm_compute in _single_digest ")" [].

Definition float_to_text (value : spec_float) (sig : N) : text :=
  format_g sig value.

Definition int_of_byte (b : byte) : Z := Z.of_N (Byte.to_N b).

Definition text_eqb (a b : text) : bool :=
  match text_compare a b with Eq => true | _ => false end.

Section Hashing.

(** The constant of [aiida.common.constants], a module that is not
    among the sources: a parameter of the development. *)
Variable AIIDA_FLOAT_PRECISION : N.

(** The local time zone of the machine, see [timestamp]. *)
Variable local_utcoffset : datetime -> Z.

Definition hash_bytes (bytes_obj : bytes) : result (list bytes) :=
  Ok [_single_digest "str" bytes_obj].

Definition hash_text (val : text) : result (list bytes) :=
  b <- encode_utf8 val ;; Ok [_single_digest "str" b].

(** The container handlers take, for each child, the outcome of the
    recursive call [_make_hash(child, **kwargs)]; the calls are pure, so
    pairing a child with its outcome before it is consumed changes
    nothing. [collect] consumes them in the order the source does. *)

Definition hash_sequence (elements : list (result (list bytes)))
    : result (list bytes) :=
  hs <- collect elements ;;
  Ok ([_single_digest "list(" []] ++ concat hs ++ [_END_DIGEST]).

Definition hash_set (elements : list (result (list bytes)))
    : result (list bytes) :=
  hs <- collect elements ;;
  Ok ([_single_digest "set(" []]
        ++ concat (sorted bytes_list_compare (fun h => h) hs)
        ++ [_END_DIGEST]).

(** [hashed_key_mapping] hashes every key when [sorted] consumes it; the
    values are hashed afterwards, in the sorted order. *)
Definition hashed_key_mapping
    (items : list (result (list bytes) * result (list bytes)))
    : result (list (list bytes * result (list bytes))) :=
  collect (map (fun kv => k <- fst kv ;; Ok (k, snd kv)) items).

Definition hash_mapping
    (items : list (result (list bytes) * result (list bytes)))
    : result (list bytes) :=
  hashed <- hashed_key_mapping items ;;
  entries <- collect
               (map (fun kv => v <- snd kv ;; Ok (fst kv ++ v))
                    (sorted bytes_list_compare fst hashed)) ;;
  Ok ([_single_digest "dict(" []] ++ concat entries ++ [_END_DIGEST]).

Definition hash_odict
    (items : list (result (list bytes) * result (list bytes)))
    : result (list bytes) :=
  entries <- collect
               (map (fun kv => k <- fst kv ;; v <- snd kv ;; Ok (k ++ v))
                    items) ;;
  Ok ([_single_digest "odict(" []] ++ concat entries ++ [_END_DIGEST]).

Definition hash_real (val : spec_float) : result (list bytes) :=
  b <- encode_utf8 (float_to_text val AIIDA_FLOAT_PRECISION) ;;
  Ok [_single_digest "float" b].

Definition hash_complex (real imag : spec_float) : result (list bytes) :=
  b <- encode_utf8 (float_to_text real AIIDA_FLOAT_PRECISION
                      ++ 33%N :: float_to_text imag AIIDA_FLOAT_PRECISION) ;;
  Ok [_single_digest "complex" b].

Definition hash_integral (val : Z) : result (list bytes) :=
  b <- encode_utf8 (format_int val) ;; Ok [_single_digest "int" b].

Definition hash_bool (val : bool) : result (list bytes) :=
  Ok [_single_digest "bool" (if val then [x01] else [x00])].

Definition hash_none : result (list bytes) :=
  Ok [_single_digest "none" []].

Definition hash_datetime (val : datetime) : result (list bytes) :=
  ts <- (if PY2 then
           wall <- match tzinfo val, utcoffset val with
                   | Some _, Some off =>
                       naive_sub_timedelta (wall_microseconds val) off
                   | _, _ => Ok (wall_microseconds val)
                   end ;;
           Ok (total_seconds
                 (wall - wall_microseconds (replace_tzinfo _EPOCH None)))
         else
           let val :=
             match tzinfo val, utcoffset val with
             | Some _, Some _ => val
             | _, _ => replace_tzinfo val (Some utc)
             end in
           Ok (timestamp local_utcoffset val)) ;;
  b <- encode_utf8 (float_to_text ts AIIDA_FLOAT_PRECISION) ;;
  Ok [_single_digest "datetime" b].

Definition hash_uuid (int : Z) : result (list bytes) :=
  Ok [_single_digest "uuid" (uuid_bytes int)].

(** [folder_digests]: the entries sorted by name, the ignored ones
    skipped, the digests of the others in that order. *)
Definition folder_walk (ignored_folder_content : list text)
    (entries : list (text * result (list bytes))) : result (list bytes) :=
  ds <- collect
          (map snd
             (filter
                (fun ne => negb (existsb (text_eqb (fst ne))
                                         ignored_folder_content))
                (sorted text_compare fst entries))) ;;
  Ok (concat ds).

Fixpoint entry_digests (ignored_folder_content : list text) (name : text)
    (e : fs_entry) : result (list bytes) :=
  match e with
  | File data =>
      n <- encode_utf8 name ;;
      Ok [_single_digest "fname" n; _single_digest "fcontent" data]
  | Dir content =>
      n <- encode_utf8 name ;;
      sub <- folder_walk ignored_folder_content
               (map (fun ne =>
                       (fst ne,
                        entry_digests ignored_folder_content (fst ne)
                                      (snd ne)))
                    content) ;;
      Ok ([_single_digest "dir(" n] ++ sub ++ [_END_DIGEST])
  end.

Definition folder_digests (ignored_folder_content : list text)
    (content : list (text * fs_entry)) : result (list bytes) :=
  folder_walk ignored_folder_content
    (map (fun ne =>
            (fst ne, entry_digests ignored_folder_content (fst ne) (snd ne)))
         content).

Definition hash_folder (kw : kwargs) (content : list (text * fs_entry))
    : result (list bytes) :=
  ds <- folder_digests (ignored_folder_content kw) content ;;
  Ok ([_single_digest "folder" []] ++ ds).

(** The dispatch of [_make_hash] on the type of its argument; the
    default implementation raises. A [bytearray] is a [Sequence] of
    integers, a list and a tuple are [Sequence]s, [bool] is registered
    apart from [Integral]. *)
Fixpoint _make_hash (kw : kwargs) (object_to_hash : value)
    : result (list bytes) :=
  match object_to_hash with
  | VBytes b => hash_bytes b
  | VStr s => hash_text s
  | VList l | VTuple l => hash_sequence (map (_make_hash kw) l)
  | VBytearray b =>
      hash_sequence (map (fun x => hash_integral (int_of_byte x)) b)
  | VSet l => hash_set (map (_make_hash kw) l)
  | VDict items =>
      hash_mapping
        (map (fun kv => (_make_hash kw (fst kv), _make_hash kw (snd kv)))
             items)
  | VOrderedDict items =>
      if odict_as_unordered kw then
        hash_mapping
          (map (fun kv => (_make_hash no_kwargs (fst kv),
                           _make_hash no_kwargs (snd kv)))
               items)
      else
        hash_odict
          (map (fun kv => (_make_hash kw (fst kv), _make_hash kw (snd kv)))
               items)
  | VFloat x => hash_real x
  | VComplex re im => hash_complex re im
  | VInt n => hash_integral n
  | VBool b => hash_bool b
  | VNone => hash_none
  | VDatetime d => hash_datetime d
  | VUUID int => hash_uuid int
  | VFolder content => hash_folder kw content
  | VObject => Raise ValueError
  end.

Definition final_hash : blake2b_obj :=
  {| obj_params := BLAKE2B_OPTIONS [] 1 true; obj_data := [] |}.

Definition empty_leaf : blake2b_obj :=
  {| obj_params := BLAKE2B_OPTIONS [] 0 true; obj_data := [] |}.

(** Feeds the leaf digests and the empty last leaf to the root node. *)
Definition root_hexdigest (hashes : list bytes) : string :=
  hexdigest (update (fold_left update hashes final_hash) (digest empty_leaf)).

Definition make_hash (kw : kwargs) (object_to_hash : value) : result string :=
  hashes <- _make_hash kw object_to_hash ;;
  Ok (root_hexdigest hashes).

End Hashing.

(** ** [get_random_string] *)

Section RandomString.

(** The generator behind the module-level [random]: its state,
    [_randbelow(n)] which draws an index and moves the state on, and the
    reseeding that [get_random_string] does when no system generator is
    available (it mixes the state, the clock and [HASHING_KEY]). *)
Variable rng : Type.
Variable randbelow : rng -> nat -> nat * rng.
Variable reseed : rng -> rng.
Variable using_sysrandom : bool.

(** [random.choice(seq)]; [None] stands for its [IndexError]. *)
Definition choice (s : rng) (seq : text) : option (N * rng) :=
  match seq with
  | [] => None
  | _ :: _ =>
      let (i, s') := randbelow s (length seq) in
      match nth_error seq i with
      | Some c => Some (c, s')
      | None => None
      end
  end.

(** [random.choice(allowed_chars) for i in range(n)], joined. *)
Fixpoint random_chars (n : nat) (s : rng) (allowed_chars : text)
    : option (text * rng) :=
  match n with
  | O => Some ([], s)
  | S k =>
      match choice s allowed_chars with
      | None => None
      | Some (c, s') =>
          match random_chars k s' allowed_chars with
          | None => None
          | Some (cs, s'') => Some (c :: cs, s'')
          end
      end
  end.

Definition get_random_string (s : rng) (length : Z) (allowed_chars : text)
    : option (text * rng) :=
  let s := if using_sysrandom then s else reseed s in
  random_chars (Z.to_nat length) s allowed_chars.

End RandomString.

(** The default alphabet of [get_random_string]. *)
Definition default_allowed_chars : text :=
  text_of_string
    "abcdefghijklmnopqrstuvwxyzABCDEFGHIJKLMNOPQRSTUVWXYZ0123456789".

(** A generator for examples: a counter, drawing its value modulo [n]. *)
Definition counter_randbelow (s n : nat) : nat * nat := (Nat.modulo s n, S s).

(** ** Notions used to state the properties *)

(** No component of the value is of a type without a registered handler. *)
Fixpoint supported (v : value) : bool :=
  match v with
  | VObject => false
  | VList l | VTuple l | VSet l => forallb supported l
  | VDict items | VOrderedDict items =>
      forallb (fun kv => supported (fst kv) && supported (snd kv)) items
  | _ => true
  end.

(** A code point that UTF-8 can encode: not a surrogate. *)
Definition encodable_char (c : N) : bool :=
  ((c <? 0xD800) || ((0xDFFF <? c) && (c <? 0x110000)))%N.

Definition encodable_text (s : text) : bool := forallb encodable_char s.

Fixpoint encodable_entry (e : fs_entry) : bool :=
  match e with
  | File _ => true
  | Dir content =>
      forallb (fun ne => encodable_text (fst ne) && encodable_entry (snd ne))
              content
  end.

Definition encodable_folder (content : list (text * fs_entry)) : bool :=
  forallb (fun ne => encodable_text (fst ne) && encodable_entry (snd ne))
          content.

(** Every [str] in the value, and every name in a folder, is encodable. *)
Fixpoint encodable (v : value) : bool :=
  match v with
  | VStr s => encodable_text s
  | VList l | VTuple l | VSet l => forallb encodable l
  | VDict items | VOrderedDict items =>
      forallb (fun kv => encodable (fst kv) && encodable (snd kv)) items
  | VFolder content => encodable_folder content
  | _ => true
  end.

(** No component of the value is an [OrderedDict] or a [Folder], the two
    types whose handlers read the keyword arguments. *)
Fixpoint reads_no_kwargs (v : value) : bool :=
  match v with
  | VOrderedDict _ | VFolder _ => false
  | VList l | VTuple l | VSet l => forallb reads_no_kwargs l
  | VDict items =>
      forallb (fun kv => reads_no_kwargs (fst kv) && reads_no_kwargs (snd kv))
              items
  | _ => true
  end.

(** The outcome of a walk, if it is a list of leaf digests, holds
    digests of 32 bytes only. *)
Definition leaves32 (r : result (list bytes)) : Prop :=
  forall hs, r = Ok hs -> Forall (fun h : bytes => length h = 32%nat) hs.

(** A lower-case hexadecimal digit. *)
Definition lower_hex (c : ascii) : Prop :=
  In c (list_ascii_of_string "0123456789abcdef").

(** The characters that the rendering of a float is made of: the
    digits, the sign, the point, the exponent mark and the letters of
    [nan] and [inf]. *)
Definition number_char (c : N) : bool :=
  ((48 <=? c) && (c <=? 57))%N
  || existsb (N.eqb c) [43; 45; 46; 101; 97; 102; 105; 110]%N.

(** The bytes that the handler of complex numbers hands to the leaf
    digest. *)
Definition complex_payload (prec : N) (real imag : spec_float) : bytes :=
  map byte_of_N (float_to_text real prec ++ 33%N :: float_to_text imag prec).

(** The two branches of the datetime handler, apart: what it computes
    as [timestamp] when [six.PY2] holds and when it does not. *)
Definition timestamp_py2 (val : datetime) : result spec_float :=
  wall <- match tzinfo val, utcoffset val with
          | Some _, Some off => naive_sub_timedelta (wall_microseconds val) off
          | _, _ => Ok (wall_microseconds val)
          end ;;
  Ok (total_seconds (wall - wall_microseconds (replace_tzinfo _EPOCH None))).

Definition timestamp_py3 (local_utcoffset : datetime -> Z) (val : datetime)
    : spec_float :=
  timestamp local_utcoffset
    match tzinfo val, utcoffset val with
    | Some _, Some _ => val
    | _, _ => replace_tzinfo val (Some utc)
    end.

(** The wall clock of [val] moved to UTC lies in the years 1 to 9999. *)
Definition utc_wall_in_range (val : datetime) : Prop :=
  match utcoffset val with
  | Some off =>
      86400000000 <= wall_microseconds val - off < 3652060 * 86400000000
  | None => True
  end.

(** Reads UTF-8 back into code points: the inverse of [encode_utf8] on
    what it produces (a byte sequence that no text encodes to may be read
    as some text or refused). *)
Fixpoint read_utf8 (bs : bytes) : option text :=
  match bs with
  | [] => Some []
  | b0 :: r =>
      let n0 := Byte.to_N b0 in
      (if n0 <? 0x80 then option_map (cons n0) (read_utf8 r)
       else if n0 <? 0xC0 then None
       else if n0 <? 0xE0 then
         match r with
         | b1 :: r1 =>
             option_map (cons ((n0 - 0xC0) * 64 + (Byte.to_N b1 - 0x80)))
                        (read_utf8 r1)
         | _ => None
         end
       else if n0 <? 0xF0 then
         match r with
         | b1 :: b2 :: r2 =>
             option_map
               (cons ((n0 - 0xE0) * 4096 + (Byte.to_N b1 - 0x80) * 64
                      + (Byte.to_N b2 - 0x80)))
               (read_utf8 r2)
         | _ => None
         end
       else
         match r with
         | b1 :: b2 :: b3 :: r3 =>
             option_map
               (cons ((n0 - 0xF0) * 262144 + (Byte.to_N b1 - 0x80) * 4096
                      + (Byte.to_N b2 - 0x80) * 64 + (Byte.to_N b3 - 0x80)))
               (read_utf8 r3)
         | _ => None
         end)%N
  end.

(** The float [x] is the whole number [k] ([-0.0] is not counted as
    [0]). *)
Definition whole_float (x : spec_float) (k : Z) : Prop :=
  match x with
  | S754_zero s => s = false /\ k = 0
  | S754_finite s m e =>
      (if s then k < 0 else 0 < k)
      /\ (if 0 <=? e then Z.abs k = Z.pos m * 2 ^ e
          else Z.pos m = Z.abs k * 2 ^ (- e))
  | _ => False
  end.

(** What an exception raised for [v] tells about [v]. *)
Definition raise_reason (v : value) (e : exception) : Prop :=
  (e = ValueError /\ supported v = false)
  \/ (e = UnicodeEncodeError /\ encodable v = false).

(** The number that a text of decimal digits writes. *)
Definition digits_value (ds : text) : Z :=
  fold_left (fun a c => 10 * a + (Z.of_N c - 48)) ds 0.

(** A text made of ASCII characters only. *)
Definition ascii_text (s : text) : Prop := Forall (fun c => (c < 128)%N) s.



(** [Relisted c c']: [c'] is the folder content [c] with the entries of
    one folder, the root or a subfolder at any depth, listed in another
    order; the names in that folder are distinct, as in a file system. *)
Inductive Relisted
    : list (text * fs_entry) -> list (text * fs_entry) -> Prop :=
| Relisted_here c c' :
    NoDup (map fst c) -> Permutation c c' -> Relisted c c'
| Relisted_below l1 l2 n c c' :
    Relisted c c' ->
    Relisted (l1 ++ (n, Dir c) :: l2) (l1 ++ (n, Dir c') :: l2).


(** *** The limits of the interpreter *)

(** CPython, from 3.11 on, refuses to write an int of more than
    [sys.get_int_max_str_digits()] decimal digits, 4300 unless the
    interpreter is configured otherwise, and raises [ValueError];
    earlier versions have no limit. *)
Definition int_max_str_digits : Z := 4300.

(** An int that every such interpreter converts to text. *)
Definition int_in_limit (n : Z) : bool :=
  Z.abs n <? 10 ^ int_max_str_digits.

Fixpoint ints_in_limit (v : value) : bool :=
  match v with
  | VInt n => int_in_limit n
  | VList l | VTuple l | VSet l => forallb ints_in_limit l
  | VDict items | VOrderedDict items =>
      forallb (fun kv => ints_in_limit (fst kv) && ints_in_limit (snd kv))
              items
  | _ => true
  end.

(** The handlers call themselves once for each level of nesting, through
    the dispatcher and a generator, which takes up to four frames of the
    interpreter per level; the interpreter raises [RecursionError] when
    its stack holds more frames than [sys.getrecursionlimit()], 1000
    unless it is configured otherwise. *)
Fixpoint entry_nesting (e : fs_entry) : nat :=
  match e with
  | File _ => 0
  | Dir content =>
      S (list_max (map (fun ne => entry_nesting (snd ne)) content))
  end.

Fixpoint nesting (v : value) : nat :=
  match v with
  | VList l | VTuple l | VSet l => S (list_max (map nesting l))
  | VDict items | VOrderedDict items =>
      S (list_max (map (fun kv => Nat.max (nesting (fst kv))
                                          (nesting (snd kv)))
                       items))
  | VBytearray _ => 1
  | VFolder content =>
      S (list_max (map (fun ne => entry_nesting (snd ne)) content))
  | _ => 0
  end.

(** A depth of nesting that takes less than half of that stack. *)
Definition max_nesting : nat := 100.

(** The value stays within both limits: the walk of such a value meets
    neither the [ValueError] of the int conversion nor
    [RecursionError]. *)
Definition within_limits (v : value) : bool :=
  ints_in_limit v && (nesting v <=? max_nesting)%nat.

(** The iteration of a [bytearray] yields its bytes as integers. *)
Definition bytearray_items (b : bytes) : list value :=
  map (fun x => VInt (int_of_byte x)) b.

(** The moment a datetime denotes, in microseconds since the epoch, a
    value without a UTC offset being read as UTC. *)
Definition instant (d : datetime) : Z :=
  wall_microseconds d
  - match utcoffset d with Some off => off | None => 0 end
  - wall_microseconds _EPOCH.

Definition with_float_precision (kw : kwargs) (p : option N) : kwargs :=
  {| odict_as_unordered := odict_as_unordered kw;
     ignored_folder_content := ignored_folder_content kw;
     float_precision := p |}.

(** Sample values. *)
Definition float_one : spec_float :=
  S754_finite false 4503599627370496 (-52).

(** The float [1.0000000001]. *)
Definition float_near_one : spec_float :=
  S754_finite false 4503599627820856 (-52).

Definition kwargs_precision (p : N) : kwargs :=
  with_float_precision no_kwargs (Some p).

Definition kwargs_unordered : kwargs :=
  {| odict_as_unordered := true; ignored_folder_content := [];
     float_precision := None |}.

(** [{'a': 1, b'a': 2}] in its two iteration orders. *)
Definition dict_text_first : list (value * value) :=
  [(VStr (text_of_string "a"), VInt 1);
   (VBytes (bytes_of_string "a"), VInt 2)].

Definition dict_bytes_first : list (value * value) :=
  [(VBytes (bytes_of_string "a"), VInt 2);
   (VStr (text_of_string "a"), VInt 1)].

(** The items of [OrderedDict([('a', OrderedDict([('x', 1)]))])]. *)
Definition nested_odict_items : list (value * value) :=
  [(VStr (text_of_string "a"),
    VOrderedDict [(VStr (text_of_string "x"), VInt 1)])].

(** A folder with one file, and the same folder with one more entry. *)
Definition sample_folder : list (text * fs_entry) :=
  [(text_of_string "a.txt", File (bytes_of_string "x"))].

Definition sample_folder_tmp : list (text * fs_entry) :=
  [(text_of_string "a.txt", File (bytes_of_string "x"));
   (text_of_string "b.tmp", File (bytes_of_string "junk"))].

Definition sample_folder_new : list (text * fs_entry) :=
  [(text_of_string "a.txt", File (bytes_of_string "x"));
   (text_of_string "c.txt", File (bytes_of_string "y"))].

Definition kwargs_ignore_tmp : kwargs :=
  {| odict_as_unordered := false;
     ignored_folder_content := [text_of_string "b.tmp"];
     float_precision := None |}.



(** A [str] holding the lone surrogate U+D800. *)
Definition lone_surrogate : value := VStr [55296%N].

Definition sample_list : value :=
  VList [VInt 1; VStr (text_of_string "a"); VNone].

Definition sample_naive : datetime :=
  {| year := 2019; month := 3; day := 4; hour := 5; minute := 6;
     second := 7; microsecond := 123456; tzinfo := None |}.

Definition sample_plus2 : datetime :=
  {| year := 2019; month := 3; day := 4; hour := 7; minute := 6;
     second := 7; microsecond := 123456;
     tzinfo := Some {| tz_utcoffset := Some 7200000000 |} |}.

(** ** Properties *)

(** The digests and the renderings are never unfolded by [simpl]; they are
    evaluated with [vm_compute] where a concrete value is wanted. *)
Arguments _single_digest : simpl never.
Arguments root_hexdigest : simpl never.
Arguments digest : simpl never.
Arguments Blake2b.blake2b : simpl never.
Arguments encode_utf8 : simpl never.
Arguments float_to_text : simpl never.
Arguments format_int : simpl never.
Arguments total_seconds : simpl never.
Arguments wall_microseconds : simpl never.
Arguments timestamp : simpl never.

(** *** Checks of the runtime model on known values *)

Definition blake2b_512 : Blake2b.params :=
  {| Blake2b.digest_size := 64; Blake2b.person := []; Blake2b.fanout := 1;
     Blake2b.depth := 1; Blake2b.leaf_size := 0; Blake2b.node_offset := 0;
     Blake2b.node_depth := 0; Blake2b.inner_size := 0;
     Blake2b.last_node := false |}.

(** The test vector of RFC 7693, appendix A. *)
Example blake2b_abc :
  hexlify (Blake2b.blake2b blake2b_512 (bytes_of_string "abc"))
  = ("ba80a53f981c4d0d6a2797b69f12f6e94c212f14685ac4b74b12bb6fdbffa2d1"
     ++ "7d87c5392aab792dc252d5de4533cc9518d38aa8dbf1925ab92386edd4009923")%string.
Proof. vm_compute. reflexivity. Qed.

Example blake2b_empty :
  hexlify (Blake2b.blake2b blake2b_512 [])
  = ("786a02f742015903c6c6fd852552d272912f4740e15847618a86e217f71f5419"
     ++ "d25e1031afee585313896444934eb04b903a685b1448b755d56f701afe9be2ce")%string.
Proof. vm_compute. reflexivity. Qed.

(** [hashlib.blake2b(b'hello', person=b'str', node_depth=0,
    **BLAKE2B_OPTIONS).hexdigest()]. *)
Example _single_digest_hello :
  hexlify (_single_digest "str" (bytes_of_string "hello"))
  = "942b3a432447c329670724e1fa773dc6ec3976c61e01c7cca19ec4a95c8db9cf"%string.
Proof. vm_compute. reflexivity. Qed.

(** U+00E9, U+20AC and U+1F600 in UTF-8. *)
Example encode_utf8_samples :
  encode_utf8 [233; 8364; 128512]%N
  = Ok [xc3; xa9; xe2; x82; xac; xf0; x9f; x98; x80].
Proof. reflexivity. Qed.

Example format_int_samples :
  format_int 0 = text_of_string "0"
  /\ format_int 1908 = text_of_string "1908"
  /\ format_int (-42) = text_of_string "-42".
Proof. repeat split. Qed.

(** ['{:.14g}'.format(x)] and ['{:.6g}'.format(x)] for 1.0000000001,
    0.1 + 0.2, 1e22, 1e-05, 123456789.0 and -2.5e-07. *)
Example format_g_samples :
  format_g 14 float_near_one = text_of_string "1.0000000001"
  /\ format_g 6 float_near_one = text_of_string "1"
  /\ format_g 14 (S754_finite false 5404319552844596 (-54))
     = text_of_string "0.3"
  /\ format_g 14 (S754_finite false 4768371582031250 21)
     = text_of_string "1e+22"
  /\ format_g 14 (S754_finite false 5902958103587057 (-69))
     = text_of_string "1e-05"
  /\ format_g 6 (S754_finite false 8285044862877696 (-26))
     = text_of_string "1.23457e+08"
  /\ format_g 14 (S754_finite true 4722366482869645 (-74))
     = text_of_string "-2.5e-07"
  /\ format_g 14 (S754_zero true) = text_of_string "-0".
Proof. repeat split; vm_compute; reflexivity. Qed.

(** [datetime(2019, 3, 4, 5, 6, 7, 123456, tzinfo=utc)]: its ordinal
    and its timestamp, the float 1551675967.123456. *)
Example datetime_samples :
  toordinal sample_naive = 737122
  /\ toordinal _EPOCH = 719163
  /\ timestamp (fun _ => 0) (replace_tzinfo sample_naive (Some utc))
     = S754_finite false 6508200715609780 (-22)
  /\ timestamp (fun _ => 0) sample_plus2
     = S754_finite false 6508200715609780 (-22).
Proof. repeat split; vm_compute; reflexivity. Qed.

Example uuid_bytes_sample :
  hexlify (uuid_bytes 0x0123456789abcdef0123456789abcdef)
  = "0123456789abcdef0123456789abcdef"%string.
Proof. vm_compute. reflexivity. Qed.

(** [make_hash(None)], [make_hash([1, 2, 3])] and
    [make_hash({'b': 1, 'a': 2})]. *)
Example make_hash_samples prec tzl :
  make_hash prec tzl no_kwargs VNone
  = Ok "1729486cc7e56a6383542b1ec73125ccb26093651a5da05e04657ac416a74b8f"%string
  /\ make_hash prec tzl no_kwargs (VList [VInt 1; VInt 2; VInt 3])
     = Ok "b6b13d50e3bee7e58371af2b303f629edf32d1be2f7717c9d14193b4b8b23e04"%string
  /\ make_hash prec tzl no_kwargs
       (VDict [(VStr (text_of_string "b"), VInt 1);
               (VStr (text_of_string "a"), VInt 2)])
     = Ok "016368a8223b04f533191286bf0a59262db10bcd53a1f80549feb63f9b7f5252"%string.
Proof. repeat split; vm_compute; reflexivity. Qed.

(** *** The fuel of the runtime model is enough *)

Lemma decimal_fuel_value (fuel : nat) (n : Z) (acc : text) :
  0 <= n < 2 ^ Z.of_nat fuel ->
  fold_left (fun a c => 10 * a + (Z.of_N c - 48))
            (decimal_fuel fuel n acc) 0
  = fold_left (fun a c => 10 * a + (Z.of_N c - 48)) acc n.
Proof.
  revert n acc. induction fuel as [|k IH]; intros n acc Hn.
  - cbn [decimal_fuel]. change (2 ^ Z.of_nat 0) with 1 in Hn.
    replace n with 0 by lia. reflexivity.
  - cbn [decimal_fuel].
    pose proof (Z.mod_pos_bound n 10 ltac:(lia)) as Hm.
    pose proof (Z.div_mod n 10 ltac:(lia)) as Hd.
    destruct (n <? 10) eqn:E.
    + apply Z.ltb_lt in E. cbn [fold_left].
      rewrite Z.mod_small by lia. f_equal. lia.
    + apply Z.ltb_ge in E. rewrite IH.
      * cbn [fold_left]. f_equal. lia.
      * rewrite Nat2Z.inj_succ, Z.pow_succ_r in Hn by lia.
        split; [apply Z.div_pos; lia|].
        apply Z.div_lt_upper_bound; lia.
Qed.

(** The digits of [decimal n] write [n]. *)
Lemma decimal_value (n : Z) : 0 <= n -> digits_value (decimal n) = n.
Proof.
  intros Hn. unfold digits_value, decimal.
  rewrite decimal_fuel_value; [reflexivity|].
  split; [assumption|].
  destruct (Z.eq_dec n 0) as [->|Hne]; [reflexivity|].
  rewrite Nat2Z.inj_succ, Z2Nat.id by apply Z.log2_nonneg.
  apply Z.log2_spec. lia.
Qed.

Lemma exp10_up_spec (fuel : nat) (n d x : Z) :
  0 < d -> 0 <= x ->
  d * 10 ^ x <= n < d * 10 ^ (x + Z.of_nat fuel) ->
  let r := exp10_up fuel n d x in
  x <= r /\ d * 10 ^ r <= n < d * 10 ^ (r + 1).
Proof.
  intros Hd. revert x. induction fuel as [|k IH]; intros x Hx Hn; cbn zeta.
  - cbn [exp10_up]. rewrite Z.add_0_r in Hn. lia.
  - cbn [exp10_up]. destruct (d * 10 ^ (x + 1) <=? n) eqn:E.
    + apply Z.leb_le in E.
      destruct (IH (x + 1)) as [H1 H2]; [lia | | split; [lia | exact H2]].
      split; [assumption|].
      replace (x + 1 + Z.of_nat k) with (x + Z.of_nat (S k)) by lia.
      apply Hn.
    + apply Z.leb_gt in E. lia.
Qed.

Lemma exp10_down_spec (fuel : nat) (n d k : Z) :
  0 < n -> 1 <= k ->
  n * 10 ^ (k - 1) < d <= n * 10 ^ (k - 1 + Z.of_nat fuel) ->
  let r := exp10_down fuel n d k in
  k <= r /\ n * 10 ^ (r - 1) < d <= n * 10 ^ r.
Proof.
  intros Hn. revert k. induction fuel as [|f IH]; intros k Hk H; cbn zeta.
  - cbn [exp10_down]. rewrite Z.add_0_r in H. lia.
  - cbn [exp10_down]. destruct (d <=? n * 10 ^ k) eqn:E.
    + apply Z.leb_le in E. lia.
    + apply Z.leb_gt in E.
      destruct (IH (k + 1)) as [H1 H2]; [lia | | split; [lia | exact H2]].
      replace (k + 1 - 1) with k by lia. split; [assumption|].
      replace (k + Z.of_nat f) with (k - 1 + Z.of_nat (S f)) by lia.
      apply H.
Qed.

Lemma pow10_above (n : Z) : 0 < n -> n < 10 ^ Z.of_nat (S (Z.to_nat (Z.log2 n))).
Proof.
  intros Hn. rewrite Nat2Z.inj_succ, Z2Nat.id by apply Z.log2_nonneg.
  pose proof (Z.log2_spec n Hn) as [_ H].
  eapply Z.lt_le_trans; [exact H|].
  apply Z.pow_le_mono_l. pose proof (Z.log2_nonneg n). lia.
Qed.

(** [floor_log10 n d] is the decimal exponent of [n / d]:
    [10 ^ x <= n / d < 10 ^ (x + 1)], written without division. *)
Lemma floor_log10_spec (n d : Z) :
  0 < n -> 0 < d ->
  let x := floor_log10 n d in
  (0 <= x /\ d * 10 ^ x <= n < d * 10 ^ (x + 1))
  \/ (x < 0 /\ n * 10 ^ (- x - 1) < d <= n * 10 ^ (- x)).
Proof.
  intros Hn Hd. cbn zeta. unfold floor_log10.
  destruct (d <=? n) eqn:E.
  - apply Z.leb_le in E. left.
    assert (Hb : d * 10 ^ 0 <= n
                 < d * 10 ^ (0 + Z.of_nat (S (Z.to_nat (Z.log2 n))))).
    { change (10 ^ 0) with 1. split; [lia|].
      pose proof (pow10_above n Hn) as Hp. rewrite Z.add_0_l. nia. }
    destruct (exp10_up_spec _ n d 0 Hd (Z.le_refl 0) Hb) as [H1 H2].
    split; assumption.
  - apply Z.leb_gt in E. right.
    assert (Hb : n * 10 ^ (1 - 1) < d
                 <= n * 10 ^ (1 - 1 + Z.of_nat (S (Z.to_nat (Z.log2 d))))).
    { change (10 ^ (1 - 1)) with 1. split; [lia|].
      pose proof (pow10_above d Hd) as Hp. change (1 - 1) with 0.
      rewrite Z.add_0_l. nia. }
    destruct (exp10_down_spec _ n d 1 Hn (Z.le_refl 1) Hb) as [H1 H2].
    set (r := exp10_down (S (Z.to_nat (Z.log2 d))) n d 1) in *.
    split; [lia|].
    replace (- - r - 1) with (r - 1) by lia.
    now rewrite Z.opp_involutive.
Qed.

(** More fuel than the number of blocks does not change [absorb]. *)
Lemma absorb_fuel (k j : nat) p h t data :
  (length data <= 128 * S k)%nat ->
  Blake2b.absorb (S k + j) p h t data = Blake2b.absorb (S k) p h t data.
Proof.
  revert h t data. induction k as [|k IH]; intros h t data Hlen.
  - cbn [Blake2b.absorb Nat.add].
    replace (128 <? Z.of_nat (length data)) with false
      by (symmetry; apply Z.ltb_ge; lia).
    reflexivity.
  - change (S (S k) + j)%nat with (S (S k + j)).
    cbn [Blake2b.absorb].
    destruct (128 <? Z.of_nat (length data)); [|reflexivity].
    apply IH. rewrite length_skipn. lia.
Qed.

(** *** Induction over values and folder entries *)

Section value_induction.
Variable P : value -> Prop.
Hypothesis HNone : P VNone.
Hypothesis HBool : forall b, P (VBool b).
Hypothesis HInt : forall n, P (VInt n).
Hypothesis HFloat : forall x, P (VFloat x).
Hypothesis HComplex : forall re im, P (VComplex re im).
Hypothesis HStr : forall s, P (VStr s).
Hypothesis HBytes : forall b, P (VBytes b).
Hypothesis HBytearray : forall b, P (VBytearray b).
Hypothesis HList : forall l, Forall P l -> P (VList l).
Hypothesis HTuple : forall l, Forall P l -> P (VTuple l).
Hypothesis HSet : forall l, Forall P l -> P (VSet l).
Hypothesis HDict :
  forall items, Forall (fun kv => P (fst kv) /\ P (snd kv)) items ->
                P (VDict items).
Hypothesis HOrderedDict :
  forall items, Forall (fun kv => P (fst kv) /\ P (snd kv)) items ->
                P (VOrderedDict items).
Hypothesis HDatetime : forall d, P (VDatetime d).
Hypothesis HUUID : forall i, P (VUUID i).
Hypothesis HFolder : forall c, P (VFolder c).
Hypothesis HObject : P VObject.

Fixpoint value_ind (v : value) : P v :=
  let all :=
    fix all (l : list value) : Forall P l :=
      match l with
      | [] => Forall_nil P
      | x :: r => Forall_cons x (value_ind x) (all r)
      end in
  let all2 :=
    fix all2 (l : list (value * value))
      : Forall (fun kv => P (fst kv) /\ P (snd kv)) l :=
      match l with
      | [] => Forall_nil _
      | kv :: r =>
          Forall_cons kv (conj (value_ind (fst kv)) (value_ind (snd kv)))
                      (all2 r)
      end in
  match v with
  | VNone => HNone
  | VBool b => HBool b
  | VInt n => HInt n
  | VFloat x => HFloat x
  | VComplex re im => HComplex re im
  | VStr s => HStr s
  | VBytes b => HBytes b
  | VBytearray b => HBytearray b
  | VList l => HList l (all l)
  | VTuple l => HTuple l (all l)
  | VSet l => HSet l (all l)
  | VDict items => HDict items (all2 items)
  | VOrderedDict items => HOrderedDict items (all2 items)
  | VDatetime d => HDatetime d
  | VUUID i => HUUID i
  | VFolder c => HFolder c
  | VObject => HObject
  end.
End value_induction.

Section fs_entry_induction.
Variable P : fs_entry -> Prop.
Hypothesis HFile : forall data, P (File data).
Hypothesis HDir :
  forall content, Forall (fun ne => P (snd ne)) content -> P (Dir content).

Fixpoint fs_entry_ind (e : fs_entry) : P e :=
  match e with
  | File data => HFile data
  | Dir content =>
      HDir content
        ((fix all (l : list (text * fs_entry))
            : Forall (fun ne => P (snd ne)) l :=
            match l with
            | [] => Forall_nil _
            | ne :: r => Forall_cons ne (fs_entry_ind (snd ne)) (all r)
            end) content)
  end.
End fs_entry_induction.

(** *** The exception monad *)

Lemma bind_Ok {A B : Type} (a : A) (k : A -> result B) :
  bind (Ok a) k = k a.
Proof. reflexivity. Qed.

Lemma Ok_inj {A : Type} (a b : A) : Ok a = Ok b -> a = b.
Proof. now intros [= ->]. Qed.

Lemma bind_inv_Ok {A B : Type} (r : result A) (k : A -> result B) (b : B) :
  bind r k = Ok b -> exists a, r = Ok a /\ k a = Ok b.
Proof. destruct r as [a|e]; simpl; [eauto | discriminate]. Qed.

Lemma bind_inv_Raise {A B : Type} (r : result A) (k : A -> result B) e :
  bind r k = Raise e -> r = Raise e \/ exists a, r = Ok a /\ k a = Raise e.
Proof. destruct r as [a|e']; simpl; [eauto | intros [= ->]; auto]. Qed.

(** [H : (x <- r ;; Ok _) = Raise e]: it is [r] that raises. *)
Ltac first_raises H :=
  apply bind_inv_Raise in H;
  destruct H as [H|(? & _ & H)]; [|discriminate].

Lemma collect_Ok_all {A : Type} (rs : list (result A)) :
  (forall r, In r rs -> exists a, r = Ok a) -> exists l, collect rs = Ok l.
Proof.
  induction rs as [|r rs IH]; intros H; simpl.
  - eauto.
  - destruct (H r (or_introl eq_refl)) as [a ->].
    destruct IH as [l ->]; [intros; apply H; now right|].
    simpl. eauto.
Qed.

Lemma collect_Raise_In {A : Type} (rs : list (result A)) e :
  collect rs = Raise e -> In (Raise e) rs.
Proof.
  induction rs as [|r rs IH]; simpl; [discriminate|].
  destruct r as [a|e']; simpl.
  - destruct (collect rs); simpl; [discriminate|].
    intros [= ->]. right. now apply IH.
  - intros [= ->]. now left.
Qed.

Lemma collect_length {A : Type} (rs : list (result A)) l :
  collect rs = Ok l -> length l = length rs.
Proof.
  revert l. induction rs as [|r rs IH]; simpl; intros l.
  - now intros [= <-].
  - destruct r as [a|]; simpl; [|discriminate].
    destruct (collect rs) as [l'|]; simpl; [|discriminate].
    intros [= <-]. simpl. now rewrite (IH l' eq_refl).
Qed.

(** *** Sequences, strings and timestamps *)

(** In what follows [prec] is the value of [AIIDA_FLOAT_PRECISION] and
    [tzl] the local time zone of the machine. *)

(** C10. A list and a tuple with the same elements in the same order
    have the same hash, error outcomes included: both go through the
    [Sequence] handler, which emits the digest of the tag "list(", the
    digests of the elements in their original order and the close
    marker. *)
Theorem C10_list_tuple_same_hash prec tzl (kw : kwargs) (xs : list value) :
  make_hash prec tzl kw (VList xs) = make_hash prec tzl kw (VTuple xs)
  /\ _make_hash prec tzl kw (VList xs) = _make_hash prec tzl kw (VTuple xs)
  /\ _make_hash prec tzl kw (VList xs)
     = (hs <- collect (map (_make_hash prec tzl kw) xs) ;;
        Ok ([_single_digest "list(" []] ++ concat hs ++ [_END_DIGEST])).
Proof. repeat split; reflexivity. Qed.

(** C6. The hash of a text string is the hash of its UTF-8 encoding as
    a byte string: hashing [s] encodes it and then does what hashing the
    resulting [bytes] does, under the one tag "str". *)
Theorem C6_text_hashes_as_utf8_bytes prec tzl (kw : kwargs) (s : text) :
  make_hash prec tzl kw (VStr s)
  = (b <- encode_utf8 s ;; make_hash prec tzl kw (VBytes b))
  /\ (forall b, encode_utf8 s = Ok b ->
        make_hash prec tzl kw (VStr s) = make_hash prec tzl kw (VBytes b)
        /\ _make_hash prec tzl kw (VStr s) = Ok [_single_digest "str" b]
        /\ _make_hash prec tzl kw (VBytes b) = Ok [_single_digest "str" b]).
Proof.
  unfold make_hash; cbn [_make_hash]; unfold hash_text, hash_bytes.
  split.
  - destruct (encode_utf8 s); reflexivity.
  - intros b ->. repeat split; reflexivity.
Qed.

Lemma wall_microseconds_replace_tzinfo d tz :
  wall_microseconds (replace_tzinfo d tz) = wall_microseconds d.
Proof. reflexivity. Qed.

Lemma timestamp_normalised tzl d :
  timestamp tzl
    match tzinfo d, utcoffset d with
    | Some _, Some _ => d
    | _, _ => replace_tzinfo d (Some utc)
    end
  = total_seconds (instant d).
Proof.
  unfold timestamp, instant, aware_sub, utcoffset.
  destruct (tzinfo d) as [[[off|]]|] eqn:Htz; cbn [tz_utcoffset tzinfo replace_tzinfo utc].
  - rewrite Htz. cbn [tz_utcoffset]. apply (f_equal total_seconds). lia.
  - apply (f_equal total_seconds).
    rewrite wall_microseconds_replace_tzinfo. lia.
  - apply (f_equal total_seconds).
    rewrite wall_microseconds_replace_tzinfo. lia.
Qed.

Lemma hash_datetime_instant prec tzl d :
  hash_datetime prec tzl d
  = (b <- encode_utf8 (float_to_text (total_seconds (instant d)) prec) ;;
     Ok [_single_digest "datetime" b]).
Proof.
  unfold hash_datetime. change PY2 with false. cbv iota.
  rewrite timestamp_normalised. reflexivity.
Qed.

(** C7. The hash of a timestamp is a function of the instant it
    denotes, a value without UTC offset being read as UTC whatever the
    local zone of the machine: the seconds since the epoch, rendered
    with the significant-digit rule, under tag "datetime". Hence a naive
    datetime hashes as the same wall clock with UTC attached, and two
    aware datetimes for one instant hash alike. *)
Theorem C7_datetime_hash_depends_on_instant prec tzl (kw : kwargs) :
  (forall d,
     _make_hash prec tzl kw (VDatetime d)
     = (b <- encode_utf8 (float_to_text (total_seconds (instant d)) prec) ;;
        Ok [_single_digest "datetime" b]))
  /\ (forall d1 d2, instant d1 = instant d2 ->
        make_hash prec tzl kw (VDatetime d1)
        = make_hash prec tzl kw (VDatetime d2))
  /\ (forall d, tzinfo d = None ->
        make_hash prec tzl kw (VDatetime d)
        = make_hash prec tzl kw (VDatetime (replace_tzinfo d (Some utc))))
  /\ (forall d1 d2 off1 off2,
        utcoffset d1 = Some off1 -> utcoffset d2 = Some off2 ->
        wall_microseconds d1 - off1 = wall_microseconds d2 - off2 ->
        make_hash prec tzl kw (VDatetime d1)
        = make_hash prec tzl kw (VDatetime d2)).
Proof.
  assert (Hinst : forall d1 d2, instant d1 = instant d2 ->
            make_hash prec tzl kw (VDatetime d1)
            = make_hash prec tzl kw (VDatetime d2)).
  { intros d1 d2 H. unfold make_hash. cbn [_make_hash].
    now rewrite !hash_datetime_instant, H. }
  repeat split.
  - intros d. cbn [_make_hash]. apply hash_datetime_instant.
  - exact Hinst.
  - intros d H. apply Hinst. unfold instant, utcoffset.
    rewrite H. cbn [tzinfo replace_tzinfo utc tz_utcoffset].
    rewrite wall_microseconds_replace_tzinfo. reflexivity.
  - intros d1 d2 off1 off2 H1 H2 H. apply Hinst. unfold instant.
    rewrite H1, H2. lia.
Qed.

Lemma C6_witness :
  encode_utf8 [233%N] = Ok [xc3; xa9]
  /\ make_hash 14 (fun _ => 0) no_kwargs (VStr [233%N])
     = make_hash 14 (fun _ => 0) no_kwargs (VBytes [xc3; xa9]).
Proof.
  split; [reflexivity|].
  apply (proj2 (C6_text_hashes_as_utf8_bytes 14 (fun _ => 0) no_kwargs
                  [233%N]) [xc3; xa9]).
  reflexivity.
Defined.

Lemma C7_witness :
  instant sample_naive = instant sample_plus2
  /\ make_hash 14 (fun _ => 3600000000) no_kwargs (VDatetime sample_naive)
     = make_hash 14 (fun _ => 3600000000) no_kwargs (VDatetime sample_plus2).
Proof.
  split; [reflexivity|].
  apply (proj1 (proj2 (C7_datetime_hash_depends_on_instant
                         14 (fun _ => 3600000000) no_kwargs))).
  reflexivity.
Defined.

(** *** Rendering of the float [1.0] *)

Lemma strip_zeros_pow10 (fuel k : nat) :
  (k < fuel)%nat -> strip_zeros fuel (10 ^ Z.of_nat k) = 1.
Proof.
  revert k. induction fuel as [|f IH]; intros k Hk; [lia|].
  destruct k as [|k].
  - reflexivity.
  - cbn [strip_zeros].
    replace (10 ^ Z.of_nat (S k)) with (10 ^ Z.of_nat k * 10)
      by (rewrite Nat2Z.inj_succ, Z.pow_succ_r; lia).
    rewrite Z.mod_mul by lia.
    rewrite Z.div_mul by lia.
    assert (0 < 10 ^ Z.of_nat k * 10) by (pose proof (Z.pow_pos_nonneg 10 (Z.of_nat k)); lia).
    replace (0 <? 10 ^ Z.of_nat k * 10) with true by (symmetry; now apply Z.ltb_lt).
    simpl. apply IH. lia.
Qed.

Lemma round_half_even_exact (n t : Z) :
  0 < n -> round_half_even (n * t) n = t.
Proof.
  intros Hn. unfold round_half_even.
  rewrite (Z.mul_comm n t), Z.mod_mul, Z.div_mul by lia.
  assert (H : (2 * 0 ?= n) = Lt) by (apply Z.compare_lt_iff; lia).
  rewrite H. reflexivity.
Qed.

Lemma floor_log10_unit (n : Z) : 0 < n -> floor_log10 n n = 0.
Proof.
  intros Hn. unfold floor_log10.
  rewrite Z.leb_refl. cbn [exp10_up].
  assert (H : (n * 10 ^ (0 + 1) <=? n) = false).
  { apply Z.leb_gt. change (10 ^ (0 + 1)) with 10. lia. }
  rewrite H. reflexivity.
Qed.

Lemma format_g_finite_unit (p n : Z) :
  1 <= p -> 0 < n -> format_g_finite p n n = [49%N].
Proof.
  intros Hp Hn. unfold format_g_finite, dtoa.
  rewrite floor_log10_unit by assumption.
  replace (p - 1 - 0) with (p - 1) by lia.
  replace (0 <=? p - 1) with true by (symmetry; apply Z.leb_le; lia).
  rewrite round_half_even_exact by assumption.
  assert (Hpow : 10 ^ p = 10 * 10 ^ (p - 1)).
  { rewrite <- Z.pow_succ_r by lia. f_equal. lia. }
  assert (Hpos : 0 < 10 ^ (p - 1)) by (apply Z.pow_pos_nonneg; lia).
  replace (10 ^ (p - 1) =? 10 ^ p) with false
    by (symmetry; apply Z.eqb_neq; lia).
  replace (10 ^ (p - 1)) with (10 ^ Z.of_nat (Z.to_nat (p - 1)))
    by (rewrite Z2Nat.id; [reflexivity | lia]).
  rewrite strip_zeros_pow10 by lia.
  change (decimal 1) with [49%N].
  change (0 + 1) with 1. cbn [length Z.of_nat].
  change (1 <=? -4) with false.
  replace (p <? 1) with false by (symmetry; apply Z.ltb_ge; lia).
  reflexivity.
Qed.

Lemma float_to_text_one (prec : N) : float_to_text float_one prec = [49%N].
Proof.
  unfold float_to_text, format_g, float_one.
  change (0 <=? -52) with false. cbv iota.
  rewrite app_nil_l. apply format_g_finite_unit.
  - destruct (prec =? 0)%N eqn:E; [lia|].
    apply N.eqb_neq in E. lia.
  - apply Z.pow_pos_nonneg; lia.
Qed.

(** *** Type tags *)

(** C2. The text "1", the integer 1, the float 1.0 and [True] have four
    different hashes, whatever the float precision, although the first
    three hand the same payload, the byte "1", to the leaf digest: the
    tag of the type enters the digest as BLAKE2b personalisation, and
    [True] is hashed by the handler of [bool], under tag "bool", not by
    that of the integers. *)
Theorem C2_type_tags_separate prec tzl (kw : kwargs) :
  make_hash prec tzl kw (VStr (text_of_string "1"))
  = Ok "12de1ce9dedee6a1a592852bb0f5b5e61234bb597c5655e86d9a5425e2c3a179"%string
  /\ make_hash prec tzl kw (VInt 1)
     = Ok "d8cffbe8ffe33b22c5801736accf706528a2e4d4e1a0d914a538d5aae244cfda"%string
  /\ make_hash prec tzl kw (VFloat float_one)
     = Ok "1d0f1a46ffdc8a21e16bc10def17557a7b41cde473ee242a69d9e00a0d1b85e1"%string
  /\ make_hash prec tzl kw (VBool true)
     = Ok "31ad5fa163a0c478d966c7f7568f3248f0c58d294372b2e8f7cb0560d8c8b12f"%string
  /\ NoDup [make_hash prec tzl kw (VStr (text_of_string "1"));
            make_hash prec tzl kw (VInt 1);
            make_hash prec tzl kw (VFloat float_one);
            make_hash prec tzl kw (VBool true)]
  /\ _make_hash prec tzl kw (VStr (text_of_string "1"))
     = Ok [_single_digest "str" (bytes_of_string "1")]
  /\ _make_hash prec tzl kw (VInt 1)
     = Ok [_single_digest "int" (bytes_of_string "1")]
  /\ _make_hash prec tzl kw (VFloat float_one)
     = Ok [_single_digest "float" (bytes_of_string "1")]
  /\ _make_hash prec tzl kw (VBool true) = Ok [_single_digest "bool" [x01]]
  /\ _make_hash prec tzl kw (VBool true) <> _make_hash prec tzl kw (VInt 1).
Proof.
  assert (Hs : make_hash prec tzl kw (VStr (text_of_string "1"))
    = Ok "12de1ce9dedee6a1a592852bb0f5b5e61234bb597c5655e86d9a5425e2c3a179"%string)
    by (vm_compute; reflexivity).
  assert (Hi : make_hash prec tzl kw (VInt 1)
    = Ok "d8cffbe8ffe33b22c5801736accf706528a2e4d4e1a0d914a538d5aae244cfda"%string)
    by (vm_compute; reflexivity).
  assert (Hf : make_hash prec tzl kw (VFloat float_one)
    = Ok "1d0f1a46ffdc8a21e16bc10def17557a7b41cde473ee242a69d9e00a0d1b85e1"%string).
  { unfold make_hash. cbn [_make_hash]. unfold hash_real.
    rewrite float_to_text_one. vm_compute. reflexivity. }
  assert (Hb : make_hash prec tzl kw (VBool true)
    = Ok "31ad5fa163a0c478d966c7f7568f3248f0c58d294372b2e8f7cb0560d8c8b12f"%string)
    by (vm_compute; reflexivity).
  split; [exact Hs|]. split; [exact Hi|]. split; [exact Hf|].
  split; [exact Hb|]. split.
  - rewrite Hs, Hi, Hf, Hb.
    repeat (constructor; [simpl; intuition discriminate|]). constructor.
  - repeat split; try reflexivity.
    + cbn [_make_hash]. unfold hash_real. rewrite float_to_text_one.
      reflexivity.
    + vm_compute. discriminate.
Qed.

(** *** Keyword arguments *)

Lemma _make_hash_with_float_precision prec tzl (v : value) :
  forall kw fp,
    _make_hash prec tzl (with_float_precision kw fp) v
    = _make_hash prec tzl kw v.
Proof.
  induction v as [ | | | | | | | |l IH|l IH|l IH|items IH|items IH| | | | ]
    using value_ind; intros kw fp; try reflexivity.
  - cbn [_make_hash]. f_equal. apply map_ext_Forall.
    eapply Forall_impl; [|exact IH]. intros x Hx. apply Hx.
  - cbn [_make_hash]. f_equal. apply map_ext_Forall.
    eapply Forall_impl; [|exact IH]. intros x Hx. apply Hx.
  - cbn [_make_hash]. f_equal. apply map_ext_Forall.
    eapply Forall_impl; [|exact IH]. intros x Hx. apply Hx.
  - cbn [_make_hash]. f_equal. apply map_ext_Forall.
    eapply Forall_impl; [|exact IH]. intros kv [Hk Hv].
    cbv beta. now rewrite Hk, Hv.
  - cbn [_make_hash].
    change (odict_as_unordered (with_float_precision kw fp))
      with (odict_as_unordered kw).
    destruct (odict_as_unordered kw); [reflexivity|].
    f_equal. apply map_ext_Forall.
    eapply Forall_impl; [|exact IH]. intros kv [Hk Hv].
    cbv beta. now rewrite Hk, Hv.
Qed.

Lemma make_hash_with_float_precision prec tzl kw fp (v : value) :
  make_hash prec tzl (with_float_precision kw fp) v = make_hash prec tzl kw v.
Proof.
  unfold make_hash. now rewrite _make_hash_with_float_precision.
Qed.

(** C3 as stated fails. Whatever the system-wide precision, it cannot be
    that the hashes of 1.0000000001 and 1.0 agree when the call passes
    [float_precision=6] and differ when it passes [float_precision=12]:
    the keyword is not read. *)
Lemma C3_float_precision_keyword_counterexample :
  ~ exists prec tzl,
      make_hash prec tzl (kwargs_precision 6) (VFloat float_near_one)
      = make_hash prec tzl (kwargs_precision 6) (VFloat float_one)
      /\ make_hash prec tzl (kwargs_precision 12) (VFloat float_near_one)
         <> make_hash prec tzl (kwargs_precision 12) (VFloat float_one).
Proof.
  intros (prec & tzl & Heq & Hneq). apply Hneq.
  unfold kwargs_precision in *.
  rewrite !make_hash_with_float_precision in *. exact Heq.
Qed.

(** C3, amended. Reals are rendered with the number of significant
    digits given by the system-wide constant; a [float_precision]
    keyword of the call is accepted and changes no hash. When the
    constant is 6 the hashes of 1.0000000001 and 1.0 agree, when it is 12
    they differ. *)
Theorem C3_float_precision_is_the_constant prec tzl (kw : kwargs) :
  (forall fp v,
     make_hash prec tzl (with_float_precision kw fp) v
     = make_hash prec tzl kw v)
  /\ (forall x,
        _make_hash prec tzl kw (VFloat x)
        = (b <- encode_utf8 (float_to_text x prec) ;;
           Ok [_single_digest "float" b]))
  /\ make_hash 6 tzl kw (VFloat float_near_one)
     = make_hash 6 tzl kw (VFloat float_one)
  /\ make_hash 12 tzl kw (VFloat float_near_one)
     <> make_hash 12 tzl kw (VFloat float_one).
Proof.
  split; [intros; apply make_hash_with_float_precision|].
  split; [reflexivity|].
  split; [vm_compute; reflexivity | vm_compute; discriminate].
Qed.

(** *** Ordered mappings hashed as unordered *)

Lemma _make_hash_odict_as_unordered prec tzl kw items :
  odict_as_unordered kw = true ->
  _make_hash prec tzl kw (VOrderedDict items)
  = _make_hash prec tzl no_kwargs (VDict items).
Proof. intros H. cbn [_make_hash]. now rewrite H. Qed.

Lemma _make_hash_reads_no_kwargs prec tzl (v : value) :
  reads_no_kwargs v = true ->
  forall kw kw', _make_hash prec tzl kw v = _make_hash prec tzl kw' v.
Proof.
  induction v as [ | | | | | | | |l IH|l IH|l IH|items IH|items IH| | | | ]
    using value_ind; cbn [reads_no_kwargs]; intros H kw kw';
    try reflexivity; try discriminate; cbn [_make_hash]; f_equal;
    apply map_ext_in; intros x Hx; rewrite Forall_forall in IH;
    rewrite forallb_forall in H; specialize (H x Hx).
  - now apply IH.
  - now apply IH.
  - now apply IH.
  - apply andb_true_iff in H. destruct H as [Hk Hv].
    destruct (IH x Hx) as [IHk IHv].
    now rewrite (IHk Hk kw kw'), (IHv Hv kw kw').
Qed.

(** With the flag, an ordered mapping whose keys and values hold no
    further [OrderedDict] and no [Folder] is hashed as the dict with the
    same items and options. *)
Lemma flat_odict_as_unordered prec tzl kw items :
  odict_as_unordered kw = true ->
  forallb (fun kv => reads_no_kwargs (fst kv) && reads_no_kwargs (snd kv))
          items = true ->
  make_hash prec tzl kw (VOrderedDict items)
  = make_hash prec tzl kw (VDict items).
Proof.
  intros Hflag H. unfold make_hash.
  rewrite (_make_hash_odict_as_unordered _ _ _ _ Hflag).
  now rewrite (_make_hash_reads_no_kwargs prec tzl (VDict items) H no_kwargs kw).
Qed.

(** C4 fails on the code. With [odict_as_unordered=True] the handler
    of [OrderedDict] calls the [Mapping] handler without the keyword
    arguments, so an [OrderedDict] nested in the values is hashed under
    tag "odict(", whereas the same items in a [dict], hashed with the
    same keyword, have it hashed under tag "dict(": for
    [OrderedDict([('a', OrderedDict([('x', 1)]))])] the two hashes
    differ. *)
Theorem C4_nested_odict_loses_the_flag prec tzl :
  make_hash prec tzl kwargs_unordered (VOrderedDict nested_odict_items)
  = Ok "3c062cc16748c54909d879f8c3e6c55b9f702bd3fd361acfaf591ae66561a113"%string
  /\ make_hash prec tzl kwargs_unordered (VDict nested_odict_items)
     = Ok "e944b6b53ab098a45362540c12677ba56ee954ff62a4cb79b3e81612dd7ce172"%string
  /\ make_hash prec tzl kwargs_unordered (VOrderedDict nested_odict_items)
     <> make_hash prec tzl kwargs_unordered (VDict nested_odict_items)
  /\ make_hash prec tzl kwargs_unordered (VOrderedDict nested_odict_items)
     = make_hash prec tzl no_kwargs (VDict nested_odict_items).
Proof.
  repeat split; try (vm_compute; reflexivity).
  vm_compute. discriminate.
Qed.

(** *** Iteration order of a mapping *)

(** C1 fails on the code for mappings. The text key ['a'] and the bytes
    key [b'a'] are two keys of one dict and have the same key digest;
    [sorted] is stable and compares the key digests only, so the two
    entries stay in iteration order, and the dict [{'a': 1, b'a': 2}]
    hashes differently in its two iteration orders. *)
Theorem C1_mapping_hash_depends_on_iteration_order prec tzl (kw : kwargs) :
  Permutation dict_text_first dict_bytes_first
  /\ _make_hash prec tzl kw (VStr (text_of_string "a"))
     = _make_hash prec tzl kw (VBytes (bytes_of_string "a"))
  /\ make_hash prec tzl kw (VDict dict_text_first)
     = Ok "7b2835e0214d5fdc049a3760fd2f93d04568cd0a367a6f4ecaa66c302b198715"%string
  /\ make_hash prec tzl kw (VDict dict_bytes_first)
     = Ok "ae6901ad14d962eadc1cdc522175049578a1fa3000949f63914b74340a8544b1"%string
  /\ make_hash prec tzl kw (VDict dict_text_first)
     <> make_hash prec tzl kw (VDict dict_bytes_first).
Proof.
  split; [apply perm_swap|].
  repeat split; try (vm_compute; reflexivity).
  vm_compute. discriminate.
Qed.

(** *** Orders given by a comparison function *)

Record total_order {A : Type} (cmp : A -> A -> comparison) : Prop := {
  cmp_eq : forall a b, cmp a b = Eq -> a = b;
  cmp_antisym : forall a b, cmp b a = CompOpp (cmp a b);
  cmp_trans : forall a b c, cmp a b = Lt -> cmp b c = Lt -> cmp a c = Lt
}.

Lemma cmp_refl {A : Type} (cmp : A -> A -> comparison) :
  total_order cmp -> forall a, cmp a a = Eq.
Proof.
  intros T a. pose proof (cmp_antisym cmp T a a) as H.
  destruct (cmp a a); simpl in H; congruence.
Qed.

Lemma not_lt_trans {A : Type} (cmp : A -> A -> comparison) :
  total_order cmp ->
  forall a b c, cmp b a <> Lt -> cmp c b <> Lt -> cmp c a <> Lt.
Proof.
  intros T a b c Hba Hcb Hca.
  pose proof (cmp_antisym cmp T a b) as Hab.
  destruct (cmp a b) eqn:E; simpl in Hab.
  - apply (cmp_eq cmp T) in E. subst b. contradiction.
  - apply Hcb. eapply (cmp_trans cmp T); eauto.
  - contradiction.
Qed.

Lemma lt_of_not_lt {A : Type} (cmp : A -> A -> comparison) :
  total_order cmp ->
  forall x y z, cmp z x <> Lt -> cmp z y = Lt -> cmp x y = Lt.
Proof.
  intros T x y z Hzx Hzy.
  destruct (cmp x y) eqn:E; [| reflexivity |].
  - apply (cmp_eq cmp T) in E. subst y. contradiction.
  - exfalso. apply Hzx. apply (cmp_trans cmp T) with y; [assumption|].
    rewrite (cmp_antisym cmp T x y), E. reflexivity.
Qed.

Lemma N_compare_total_order : total_order N.compare.
Proof.
  constructor.
  - apply N.compare_eq.
  - intros a b. apply N.compare_antisym.
  - intros a b c. rewrite !N.compare_lt_iff. apply N.lt_trans.
Qed.

Lemma byte_to_N_inj (a b : byte) : Byte.to_N a = Byte.to_N b -> a = b.
Proof.
  intros H. pose proof (Byte.of_to_N a) as Ha.
  rewrite H, Byte.of_to_N in Ha. congruence.
Qed.

Lemma byte_compare_total_order : total_order byte_compare.
Proof.
  constructor; unfold byte_compare.
  - intros a b H. apply byte_to_N_inj. now apply N.compare_eq.
  - intros a b. apply N.compare_antisym.
  - intros a b c. rewrite !N.compare_lt_iff. apply N.lt_trans.
Qed.

Lemma lex_compare_total_order {A : Type} (cmp : A -> A -> comparison) :
  total_order cmp -> total_order (lex_compare cmp).
Proof.
  intros T. constructor.
  - induction a as [|x a IH]; intros [|y b]; simpl; try discriminate.
    + reflexivity.
    + destruct (cmp x y) eqn:E; try discriminate.
      intros H. apply (cmp_eq cmp T) in E. subst y. f_equal. now apply IH.
  - induction a as [|x a IH]; intros [|y b]; simpl; try reflexivity.
    rewrite (cmp_antisym cmp T x y).
    destruct (cmp x y); simpl; [apply IH | reflexivity | reflexivity].
  - induction a as [|x a IH]; intros [|y b] [|z c]; simpl;
      try discriminate; try reflexivity.
    destruct (cmp x y) eqn:Exy; try discriminate.
    + apply (cmp_eq cmp T) in Exy. subst y.
      destruct (cmp x z); try discriminate; [apply IH | reflexivity].
    + intros _. destruct (cmp y z) eqn:Eyz; try discriminate.
      * apply (cmp_eq cmp T) in Eyz. subst z. now rewrite Exy.
      * now rewrite (cmp_trans cmp T x y z Exy Eyz).
Qed.

Lemma bytes_compare_total_order : total_order bytes_compare.
Proof. apply lex_compare_total_order, byte_compare_total_order. Qed.

Lemma bytes_list_compare_total_order : total_order bytes_list_compare.
Proof. apply lex_compare_total_order, bytes_compare_total_order. Qed.

Lemma text_compare_total_order : total_order text_compare.
Proof. apply lex_compare_total_order, N_compare_total_order. Qed.

Lemma text_eqb_eq (a b : text) : text_eqb a b = true <-> a = b.
Proof.
  unfold text_eqb. split.
  - destruct (text_compare a b) eqn:E; try discriminate.
    intros _. now apply (cmp_eq _ text_compare_total_order).
  - intros ->. now rewrite (cmp_refl _ text_compare_total_order).
Qed.

(** *** [sorted] *)

Section SortedFacts.
Context {A K : Type} (cmp : K -> K -> comparison) (key : A -> K).
Hypothesis T : total_order cmp.

(** [x] may stand before [y]: the key of [y] is not smaller. *)
Let before (x y : A) : Prop := cmp (key y) (key x) <> Lt.

Lemma insert_Permutation (x : A) (l : list A) :
  Permutation (insert cmp key x l) (x :: l).
Proof.
  induction l as [|y r IH]; simpl; [reflexivity|].
  destruct (cmp (key y) (key x)); try reflexivity.
  rewrite IH. apply perm_swap.
Qed.

Lemma sorted_Permutation (l : list A) : Permutation (sorted cmp key l) l.
Proof.
  induction l as [|x r IH]; simpl; [reflexivity|].
  rewrite insert_Permutation. now constructor.
Qed.

Lemma sorted_In (l : list A) (x : A) : In x (sorted cmp key l) <-> In x l.
Proof.
  split; apply Permutation_in;
    [apply sorted_Permutation | symmetry; apply sorted_Permutation].
Qed.

Lemma insert_head (x : A) (l : list A) :
  (forall z, In z l -> before x z) -> insert cmp key x l = x :: l.
Proof.
  destruct l as [|y r]; simpl; [reflexivity|].
  intros H. specialize (H y (or_introl eq_refl)). unfold before in H.
  destruct (cmp (key y) (key x)); congruence.
Qed.

Lemma insert_StronglySorted (x : A) (l : list A) :
  StronglySorted before l -> StronglySorted before (insert cmp key x l).
Proof.
  induction l as [|y r IH]; simpl; intros Hs.
  - constructor; constructor.
  - apply StronglySorted_inv in Hs. destruct Hs as [Hr Hy].
    destruct (cmp (key y) (key x)) eqn:E.
    + constructor; [now constructor|].
      constructor; [unfold before; congruence|].
      eapply Forall_impl; [|exact Hy]. intros z Hz.
      unfold before in *. eapply (not_lt_trans cmp T); eauto. congruence.
    + constructor; [now apply IH|].
      eapply Permutation_Forall;
        [symmetry; apply insert_Permutation|].
      constructor; [|exact Hy].
      unfold before. rewrite (cmp_antisym cmp T (key y) (key x)), E.
      discriminate.
    + constructor; [now constructor|].
      constructor; [unfold before; congruence|].
      eapply Forall_impl; [|exact Hy]. intros z Hz.
      unfold before in *. eapply (not_lt_trans cmp T); eauto. congruence.
Qed.

Lemma sorted_StronglySorted (l : list A) :
  StronglySorted before (sorted cmp key l).
Proof.
  induction l as [|x r IH]; simpl; [constructor|].
  now apply insert_StronglySorted.
Qed.

Lemma filter_insert (p : A -> bool) (x : A) (l : list A) :
  StronglySorted before l ->
  filter p (insert cmp key x l)
  = if p x then insert cmp key x (filter p l) else filter p l.
Proof.
  induction l as [|y r IH]; intros Hs.
  - simpl. destruct (p x); reflexivity.
  - apply StronglySorted_inv in Hs. destruct Hs as [Hr Hy].
    cbn [insert]. destruct (cmp (key y) (key x)) eqn:E.
    + change (filter p (x :: y :: r))
        with (if p x then x :: filter p (y :: r) else filter p (y :: r)).
      destruct (p x) eqn:Px; [|reflexivity].
      symmetry. apply insert_head. intros z Hz.
      apply filter_In in Hz. destruct Hz as [Hz' _].
      destruct Hz' as [<-|Hz']; [unfold before; congruence|].
      rewrite Forall_forall in Hy. specialize (Hy z Hz').
      unfold before in *. eapply (not_lt_trans cmp T); eauto. congruence.
    + cbn [filter]. rewrite (IH Hr).
      destruct (p y) eqn:Py, (p x) eqn:Px; try reflexivity.
      cbn [insert]. now rewrite E.
    + change (filter p (x :: y :: r))
        with (if p x then x :: filter p (y :: r) else filter p (y :: r)).
      destruct (p x) eqn:Px; [|reflexivity].
      symmetry. apply insert_head. intros z Hz.
      apply filter_In in Hz. destruct Hz as [Hz' _].
      destruct Hz' as [<-|Hz']; [unfold before; congruence|].
      rewrite Forall_forall in Hy. specialize (Hy z Hz').
      unfold before in *. eapply (not_lt_trans cmp T); eauto. congruence.
Qed.

(** Skipping entries after sorting is sorting what is left: [sorted]
    keeps the relative order of the entries it does not separate. *)
Lemma filter_sorted (p : A -> bool) (l : list A) :
  filter p (sorted cmp key l) = sorted cmp key (filter p l).
Proof.
  induction l as [|x r IH]; [reflexivity|].
  cbn [sorted filter].
  rewrite filter_insert by apply sorted_StronglySorted.
  rewrite IH. destruct (p x); reflexivity.
Qed.

(** Entries whose keys all tie are left as they are. *)
Lemma sorted_ties (l : list A) :
  (forall x y, In x l -> In y l -> cmp (key x) (key y) = Eq) ->
  sorted cmp key l = l.
Proof.
  induction l as [|x r IH]; intros H; [reflexivity|].
  cbn [sorted]. rewrite IH by (intros; apply H; simpl; auto).
  apply insert_head. intros z Hz. unfold before.
  rewrite (H z x); [discriminate | now right | now left].
Qed.

(** [sorted] is stable: the entries with a given key come out in the
    order they came in. *)
Lemma sorted_stable (k : K) (l : list A) :
  filter (fun x => match cmp (key x) k with Eq => true | _ => false end)
         (sorted cmp key l)
  = filter (fun x => match cmp (key x) k with Eq => true | _ => false end) l.
Proof.
  rewrite filter_sorted. apply sorted_ties.
  intros x y Hx Hy. apply filter_In in Hx, Hy.
  destruct Hx as [_ Hx], Hy as [_ Hy].
  destruct (cmp (key x) k) eqn:Ex; try discriminate.
  destruct (cmp (key y) k) eqn:Ey; try discriminate.
  apply (cmp_eq cmp T) in Ex, Ey. rewrite Ex, Ey. apply (cmp_refl cmp T).
Qed.

Lemma insert_cons_lt (x z : A) (r : list A) :
  cmp (key z) (key x) = Lt ->
  insert cmp key x (z :: r) = z :: insert cmp key x r.
Proof. intros E. cbn [insert]. now rewrite E. Qed.

Lemma insert_cons_not_lt (x z : A) (r : list A) :
  cmp (key z) (key x) <> Lt -> insert cmp key x (z :: r) = x :: z :: r.
Proof.
  intros E. cbn [insert]. destruct (cmp (key z) (key x)); congruence.
Qed.

Lemma lt_or_not (a b : K) : cmp a b = Lt \/ cmp a b <> Lt.
Proof. destruct (cmp a b); [right | left | right]; congruence. Qed.

(** Two entries that both go in front of [l]. *)
Lemma insert_front (x y : A) (l : list A) :
  (cmp (key x) (key y) = Eq -> x = y) ->
  (forall z, In z l -> before x z) -> (forall z, In z l -> before y z) ->
  insert cmp key x (insert cmp key y l)
  = insert cmp key y (insert cmp key x l).
Proof.
  intros Htie Hx Hy. rewrite (insert_head y l Hy), (insert_head x l Hx).
  pose proof (cmp_antisym cmp T (key x) (key y)) as Hyx.
  destruct (cmp (key x) (key y)) eqn:E; simpl in Hyx.
  - now rewrite (Htie eq_refl).
  - rewrite (insert_cons_not_lt x y) by congruence.
    rewrite (insert_cons_lt y x) by assumption.
    now rewrite (insert_head y l Hy).
  - rewrite (insert_cons_lt x y) by assumption.
    rewrite (insert_cons_not_lt y x) by congruence.
    now rewrite (insert_head x l Hx).
Qed.

Lemma insert_insert (x y : A) (l : list A) :
  StronglySorted before l ->
  (cmp (key x) (key y) = Eq -> x = y) ->
  insert cmp key x (insert cmp key y l)
  = insert cmp key y (insert cmp key x l).
Proof.
  intros Hs Htie.
  induction l as [|z r IH].
  - apply insert_front; [assumption | intros z [] | intros z []].
  - apply StronglySorted_inv in Hs. destruct Hs as [Hr Hz].
    rewrite Forall_forall in Hz.
    destruct (lt_or_not (key z) (key y)) as [Ezy|Ezy],
             (lt_or_not (key z) (key x)) as [Ezx|Ezx].
    + rewrite (insert_cons_lt y z r Ezy), (insert_cons_lt x z r Ezx).
      rewrite (insert_cons_lt x z _ Ezx), (insert_cons_lt y z _ Ezy).
      now rewrite IH.
    + assert (E : cmp (key x) (key y) = Lt)
        by (apply (lt_of_not_lt cmp T) with (key z); assumption).
      rewrite (insert_cons_lt y z r Ezy), (insert_cons_not_lt x z r Ezx).
      rewrite (insert_cons_not_lt x z _ Ezx).
      rewrite (insert_cons_lt y x _ E).
      now rewrite (insert_cons_lt y z r Ezy).
    + assert (E : cmp (key y) (key x) = Lt)
        by (apply (lt_of_not_lt cmp T) with (key z); assumption).
      rewrite (insert_cons_not_lt y z r Ezy), (insert_cons_lt x z r Ezx).
      rewrite (insert_cons_not_lt y z _ Ezy).
      rewrite (insert_cons_lt x y _ E).
      now rewrite (insert_cons_lt x z r Ezx).
    + apply insert_front; [assumption | |].
      * intros w [<-|Hw]; [exact Ezx|].
        unfold before. eapply (not_lt_trans cmp T); [exact Ezx|].
        apply (Hz w Hw).
      * intros w [<-|Hw]; [exact Ezy|].
        unfold before. eapply (not_lt_trans cmp T); [exact Ezy|].
        apply (Hz w Hw).
Qed.

(** When entries with tied keys are equal entries, [sorted] gives one
    result for all the orders of its input. *)
Lemma sorted_of_Permutation (l l' : list A) :
  (forall x y, In x l -> In y l -> cmp (key x) (key y) = Eq -> x = y) ->
  Permutation l l' -> sorted cmp key l = sorted cmp key l'.
Proof.
  intros Htie HP. induction HP as [|x l l' HP IH|x y l|l l' l'' HP1 IH1 HP2 IH2].
  - reflexivity.
  - cbn [sorted]. rewrite IH; [reflexivity|].
    intros; apply Htie; simpl; auto.
  - cbn [sorted]. apply insert_insert; [apply sorted_StronglySorted|].
    apply Htie; simpl; auto.
  - rewrite IH1 by assumption. apply IH2.
    intros x y Hx Hy.
    apply Htie; apply (Permutation_in _ (Permutation_sym HP1)); assumption.
Qed.

End SortedFacts.

(** *** More on [collect] *)

Lemma collect_Ok_In {A : Type} (rs : list (result A)) l r :
  collect rs = Ok l -> In r rs -> exists a, r = Ok a.
Proof.
  revert l. induction rs as [|r0 rs IH]; intros l H Hin; [destruct Hin|].
  cbn [collect] in H. apply bind_inv_Ok in H. destruct H as (a & Ha & H).
  apply bind_inv_Ok in H. destruct H as (l' & Hl' & _).
  destruct Hin as [<-|Hin]; [eauto|]. eapply IH; eauto.
Qed.

Lemma collect_cons {A : Type} (a : A) (rs : list (result A)) l :
  collect rs = Ok l -> collect (Ok a :: rs) = Ok (a :: l).
Proof. intros H. cbn [collect bind]. now rewrite H. Qed.

Lemma collect_Permutation {A : Type} (rs rs' : list (result A)) :
  Permutation rs rs' ->
  forall l, collect rs = Ok l ->
            exists l', collect rs' = Ok l' /\ Permutation l l'.
Proof.
  induction 1 as [|r rs rs' HP IH|r1 r2 rs|rs rs' rs'' HP1 IH1 HP2 IH2];
    intros l H.
  - exists l. split; [assumption | reflexivity].
  - cbn [collect] in *. destruct r as [a|]; [|discriminate].
    cbn [bind] in *. destruct (collect rs) as [l0|]; [|discriminate].
    injection H as <-. destruct (IH l0 eq_refl) as (l' & -> & HP').
    exists (a :: l'). split; [reflexivity | now constructor].
  - cbn [collect] in *.
    destruct r1 as [a1|]; [|destruct r2; discriminate].
    destruct r2 as [a2|]; [|discriminate].
    cbn [bind] in *. destruct (collect rs) as [l0|]; [|discriminate].
    injection H as <-. exists (a1 :: a2 :: l0).
    split; [reflexivity | apply perm_swap].
  - destruct (IH1 l H) as (l' & H' & HP').
    destruct (IH2 l' H') as (l'' & H'' & HP'').
    exists l''. split; [assumption | now transitivity l'].
Qed.


(** *** Folders *)

Lemma existsb_text_eqb (name : text) (l : list text) :
  existsb (text_eqb name) l = true <-> In name l.
Proof.
  rewrite existsb_exists. split.
  - intros (x & Hx & E). apply text_eqb_eq in E. now subst.
  - intros H. exists name. split; [assumption | now apply text_eqb_eq].
Qed.


Lemma entry_digests_Dir ign n c :
  entry_digests ign n (Dir c)
  = (b <- encode_utf8 n ;;
     sub <- folder_digests ign c ;;
     Ok ([_single_digest "dir(" b] ++ sub ++ [_END_DIGEST])).
Proof. reflexivity. Qed.








(** On the sample folder the added file changes the hash itself. *)
Example sample_folder_new_hash :
  make_hash 14 (fun _ => 0) kwargs_ignore_tmp (VFolder sample_folder_new)
  <> make_hash 14 (fun _ => 0) kwargs_ignore_tmp (VFolder sample_folder).
Proof. intros H. vm_compute in H. discriminate H. Qed.

(** *** The renderings of numbers are ASCII and can always be encoded *)

Lemma encode_utf8_ascii (s : text) :
  ascii_text s -> encode_utf8 s = Ok (map byte_of_N s).
Proof.
  unfold encode_utf8, ascii_text. intros H.
  assert (Hc : collect (map utf8_char s)
               = Ok (map (fun c => [byte_of_N c]) s)).
  { induction H as [|c s Hc Hs IH]; [reflexivity|].
    cbn [map collect]. unfold utf8_char at 1.
    replace (c <? 128)%N with true by (symmetry; now apply N.ltb_lt).
    cbn [bind]. now rewrite IH. }
  rewrite Hc. cbn [bind]. f_equal.
  clear. induction s as [|c s IH]; [reflexivity|].
  cbn [map concat app]. now rewrite IH.
Qed.

Lemma Forall_firstn {A : Type} (P : A -> Prop) n (l : list A) :
  Forall P l -> Forall P (firstn n l).
Proof.
  intros H. rewrite <- (firstn_skipn n l) in H.
  now apply Forall_app in H.
Qed.

Lemma Forall_skipn {A : Type} (P : A -> Prop) n (l : list A) :
  Forall P l -> Forall P (skipn n l).
Proof.
  intros H. rewrite <- (firstn_skipn n l) in H.
  now apply Forall_app in H.
Qed.

Lemma decimal_fuel_ascii fuel n acc :
  ascii_text acc -> ascii_text (decimal_fuel fuel n acc).
Proof.
  revert n acc. induction fuel as [|k IH]; intros n acc H; [exact H|].
  cbn [decimal_fuel].
  assert (H' : ascii_text ((48 + Z.to_N (n mod 10))%N :: acc)).
  { constructor; [|exact H].
    pose proof (Z.mod_pos_bound n 10 ltac:(lia)). lia. }
  destruct (n <? 10); [exact H' | now apply IH].
Qed.

Lemma decimal_ascii n : ascii_text (decimal n).
Proof. apply decimal_fuel_ascii. constructor. Qed.

Lemma format_int_ascii n : ascii_text (format_int n).
Proof.
  unfold format_int. destruct (n <? 0); [|apply decimal_ascii].
  constructor; [reflexivity | apply decimal_ascii].
Qed.

Lemma zeros_ascii k : ascii_text (zeros k).
Proof.
  unfold zeros, ascii_text. apply Forall_forall. intros c Hc.
  apply repeat_spec in Hc. now subst.
Qed.

Lemma format_exponent_ascii e : ascii_text (format_exponent e).
Proof.
  unfold format_exponent.
  constructor; [reflexivity|]. constructor.
  - destruct (e <? 0); reflexivity.
  - destruct (Z.abs e <? 10); [constructor; [reflexivity|]|];
      apply decimal_ascii.
Qed.

Lemma format_g_finite_ascii p n d : ascii_text (format_g_finite p n d).
Proof.
  unfold format_g_finite, dtoa.
  set (m := if 0 <=? p - 1 - floor_log10 n d then _ else _).
  destruct (if m =? 10 ^ p then _ else _) as [m' x'].
  pose proof (decimal_ascii (strip_zeros (Z.to_nat p) m')) as Hd.
  set (digits := decimal (strip_zeros (Z.to_nat p) m')) in *.
  destruct ((x' + 1 <=? -4) || (p <? x' + 1)).
  - apply Forall_app. split; [now apply Forall_firstn|].
    apply Forall_app. split; [|apply format_exponent_ascii].
    destruct (1 <? Z.of_nat (length digits)); [|constructor].
    constructor; [reflexivity | now apply Forall_skipn].
  - destruct (x' + 1 <=? 0).
    + constructor; [reflexivity|]. constructor; [reflexivity|].
      apply Forall_app. split; [apply zeros_ascii | exact Hd].
    + destruct (Z.of_nat (length digits) <=? x' + 1).
      * apply Forall_app. split; [exact Hd | apply zeros_ascii].
      * apply Forall_app. split; [now apply Forall_firstn|].
        constructor; [reflexivity | now apply Forall_skipn].
Qed.

Lemma float_to_text_ascii x prec : ascii_text (float_to_text x prec).
Proof.
  unfold float_to_text, format_g.
  assert (Hsign : forall s : bool, ascii_text (if s then [45%N] else [])).
  { intros []; repeat constructor. }
  destruct x as [s|s| |s m e].
  - apply Forall_app. split; [apply Hsign | repeat constructor].
  - apply Forall_app. split; [apply Hsign | repeat constructor].
  - repeat constructor.
  - apply Forall_app. split; [apply Hsign|].
    destruct (0 <=? e); apply format_g_finite_ascii.
Qed.

Lemma hash_integral_Ok n :
  hash_integral n
  = Ok [_single_digest "int" (map byte_of_N (format_int n))].
Proof.
  unfold hash_integral.
  now rewrite (encode_utf8_ascii _ (format_int_ascii n)).
Qed.

Lemma hash_real_Ok prec x :
  hash_real prec x
  = Ok [_single_digest "float" (map byte_of_N (float_to_text x prec))].
Proof.
  unfold hash_real.
  now rewrite (encode_utf8_ascii _ (float_to_text_ascii x prec)).
Qed.

Lemma hash_complex_Ok prec re im :
  exists d, hash_complex prec re im = Ok [d].
Proof.
  unfold hash_complex. rewrite encode_utf8_ascii; [cbn [bind]; eauto|].
  apply Forall_app. split; [apply float_to_text_ascii|].
  constructor; [reflexivity | apply float_to_text_ascii].
Qed.

Lemma hash_datetime_Ok prec tzl d :
  exists h, hash_datetime prec tzl d = Ok [h].
Proof.
  rewrite hash_datetime_instant.
  rewrite (encode_utf8_ascii _ (float_to_text_ascii _ prec)).
  cbn [bind]. eauto.
Qed.

(** *** Byte arrays *)

Lemma _make_hash_bytearray_as_list prec tzl kw b :
  _make_hash prec tzl kw (VBytearray b)
  = _make_hash prec tzl kw (VList (bytearray_items b)).
Proof.
  cbn [_make_hash]. unfold bytearray_items. now rewrite map_map.
Qed.

Lemma collect_hash_integral (b : bytes) :
  collect (map (fun x => hash_integral (int_of_byte x)) b)
  = Ok (map (fun x => [_single_digest "int"
                         (map byte_of_N (format_int (int_of_byte x)))]) b).
Proof.
  induction b as [|x b IH]; [reflexivity|].
  cbn [map collect]. now rewrite hash_integral_Ok, IH.
Qed.

Lemma concat_map_singleton {A B : Type} (f : A -> B) (l : list A) :
  concat (map (fun x => [f x]) l) = map f l.
Proof.
  induction l as [|x l IH]; [reflexivity|].
  cbn [map concat app]. now rewrite IH.
Qed.

Lemma _make_hash_bytearray prec tzl kw b :
  _make_hash prec tzl kw (VBytearray b)
  = Ok ([_single_digest "list(" []]
          ++ map (fun x => _single_digest "int"
                             (map byte_of_N (format_int (int_of_byte x)))) b
          ++ [_END_DIGEST]).
Proof.
  cbn [_make_hash]. unfold hash_sequence.
  rewrite collect_hash_integral. cbn [bind].
  now rewrite (concat_map_singleton
                 (fun x => _single_digest "int"
                             (map byte_of_N (format_int (int_of_byte x))))).
Qed.

(** X18. A [bytearray] is hashed by the [Sequence] handler, as the list
    of its bytes taken as integers: the digest of the tag "list(", one
    digest under tag "int" over the decimal text of each byte, the close
    marker. These leaf digests are never the single digest under tag
    "str" that the [bytes] object with the same content gives. *)
Theorem X18_bytearray_hashed_as_list_of_ints prec tzl (kw : kwargs)
    (b : bytes) :
  make_hash prec tzl kw (VBytearray b)
  = make_hash prec tzl kw (VList (bytearray_items b))
  /\ _make_hash prec tzl kw (VBytearray b)
     = Ok ([_single_digest "list(" []]
             ++ map (fun x => _single_digest "int"
                                (map byte_of_N (format_int (int_of_byte x))))
                    b
             ++ [_END_DIGEST])
  /\ _make_hash prec tzl kw (VBytes b) = Ok [_single_digest "str" b]
  /\ _make_hash prec tzl kw (VBytearray b) <> _make_hash prec tzl kw (VBytes b).
Proof.
  assert (Hne : [_single_digest "list(" []]
                  ++ map (fun x => _single_digest "int"
                            (map byte_of_N (format_int (int_of_byte x)))) b
                  ++ [_END_DIGEST]
                <> [_single_digest "str" b]).
  { intros H. apply (f_equal (@length bytes)) in H.
    rewrite !length_app in H. cbn [length] in H. lia. }
  split.
  { unfold make_hash. now rewrite _make_hash_bytearray_as_list. }
  split; [apply _make_hash_bytearray|].
  split; [reflexivity|].
  rewrite _make_hash_bytearray. cbn [_make_hash]. unfold hash_bytes.
  intros H. apply Hne. now apply Ok_inj.
Qed.

(** The hashes of [bytearray(b"ab")] and of [b"ab"]. *)
Example bytearray_ab_hash :
  make_hash 14 (fun _ => 0) no_kwargs (VBytearray (bytes_of_string "ab"))
  <> make_hash 14 (fun _ => 0) no_kwargs (VBytes (bytes_of_string "ab")).
Proof. intros H. vm_compute in H. discriminate H. Qed.

(** *** Which calls fail *)

Lemma forallb_false_In {A : Type} (f : A -> bool) (l : list A) x :
  In x l -> f x = false -> forallb f l = false.
Proof.
  intros Hin Hx. destruct (forallb f l) eqn:E; [|reflexivity].
  rewrite forallb_forall in E. rewrite (E x Hin) in Hx. discriminate.
Qed.

Lemma forallb_false_exists {A : Type} (f : A -> bool) (l : list A) :
  forallb f l = false -> exists x, In x l /\ f x = false.
Proof.
  induction l as [|x l IH]; cbn [forallb]; [discriminate|].
  destruct (f x) eqn:E; cbn [andb].
  - intros H. destruct (IH H) as (y & Hy & Hf). exists y. split; [now right | assumption].
  - intros _. exists x. split; [now left | assumption].
Qed.

Lemma collect_In_Raise {A : Type} (rs : list (result A)) e :
  In (Raise e) rs -> exists e', collect rs = Raise e'.
Proof.
  intros Hin. destruct (collect rs) as [l|e'] eqn:E; [|eauto].
  destruct (collect_Ok_In _ _ _ E Hin) as (a & Ha). discriminate.
Qed.

Lemma utf8_char_Raise c e :
  utf8_char c = Raise e ->
  e = UnicodeEncodeError /\ encodable_char c = false.
Proof.
  unfold utf8_char, encodable_char.
  destruct (c <? 128)%N eqn:E1; [discriminate|].
  destruct (c <? 2048)%N eqn:E2; [discriminate|].
  destruct ((55296 <=? c) && (c <=? 57343))%N eqn:E3.
  - intros [= <-]. split; [reflexivity|].
    apply andb_true_iff in E3. destruct E3 as [Ea Eb].
    apply N.leb_le in Ea, Eb.
    replace (c <? 55296)%N with false by (symmetry; apply N.ltb_ge; lia).
    replace (57343 <? c)%N with false by (symmetry; apply N.ltb_ge; lia).
    reflexivity.
  - destruct (c <? 65536)%N eqn:E4; [discriminate|].
    destruct (c <? 1114112)%N eqn:E5; [discriminate|].
    intros [= <-]. split; [reflexivity|].
    apply N.ltb_ge in E4. 
    replace (c <? 55296)%N with false by (symmetry; apply N.ltb_ge; lia).
    rewrite andb_false_r. reflexivity.
Qed.

Lemma encode_utf8_Raise s e :
  encode_utf8 s = Raise e ->
  e = UnicodeEncodeError /\ encodable_text s = false.
Proof.
  unfold encode_utf8. intros H. first_raises H.
  apply collect_Raise_In, in_map_iff in H. destruct H as (c & Hc & Hin).
  apply utf8_char_Raise in Hc. destruct Hc as [-> Hc].
  split; [reflexivity|]. unfold encodable_text.
  now apply forallb_false_In with c.
Qed.

Lemma folder_walk_Raise ign (entries : list (text * result (list bytes))) e :
  folder_walk ign entries = Raise e ->
  exists ne, In ne entries /\ snd ne = Raise e.
Proof.
  unfold folder_walk. intros H. first_raises H.
  apply collect_Raise_In, in_map_iff in H. destruct H as (ne & Hne & Hin).
  apply filter_In in Hin. destruct Hin as [Hin _].
  apply sorted_In in Hin. eauto.
Qed.

Lemma folder_digests_Raise ign content :
  Forall (fun ne => forall name e,
            entry_digests ign name (snd ne) = Raise e ->
            e = UnicodeEncodeError
            /\ encodable_text name && encodable_entry (snd ne) = false)
         content ->
  forall e, folder_digests ign content = Raise e ->
            e = UnicodeEncodeError /\ encodable_folder content = false.
Proof.
  intros HF e H. unfold folder_digests in H.
  apply folder_walk_Raise in H. destruct H as (ne & Hin & Hne).
  apply in_map_iff in Hin. destruct Hin as (ne0 & <- & Hin0).
  cbn [snd] in Hne. rewrite Forall_forall in HF.
  destruct (HF ne0 Hin0 _ _ Hne) as [-> Hb].
  split; [reflexivity|]. unfold encodable_folder.
  now apply forallb_false_In with ne0.
Qed.

Lemma entry_digests_Raise ign (ent : fs_entry) :
  forall name e,
    entry_digests ign name ent = Raise e ->
    e = UnicodeEncodeError
    /\ encodable_text name && encodable_entry ent = false.
Proof.
  induction ent as [data|content IH] using fs_entry_ind; intros name e H.
  - cbn [entry_digests] in H. first_raises H.
    apply encode_utf8_Raise in H. destruct H as [-> H].
    now rewrite H.
  - rewrite entry_digests_Dir in H. apply bind_inv_Raise in H.
    destruct H as [H|(a & _ & H)].
    + apply encode_utf8_Raise in H. destruct H as [-> H]. now rewrite H.
    + first_raises H.
      apply (folder_digests_Raise ign content IH) in H.
      destruct H as [-> H]. split; [reflexivity|].
      cbn [encodable_entry]. fold (encodable_folder content).
      rewrite H. apply andb_false_r.
Qed.

Lemma hash_folder_Raise kw content e :
  hash_folder kw content = Raise e ->
  e = UnicodeEncodeError /\ encodable_folder content = false.
Proof.
  unfold hash_folder. intros H. first_raises H.
  eapply folder_digests_Raise; [|exact H].
  apply Forall_forall. intros ne _. apply entry_digests_Raise.
Qed.

Lemma hashed_key_mapping_In items hashed x :
  hashed_key_mapping items = Ok hashed -> In x hashed ->
  exists kv, In kv items /\ fst kv = Ok (fst x) /\ snd kv = snd x.
Proof.
  unfold hashed_key_mapping. revert hashed.
  induction items as [|kv items IH]; intros hashed H Hin.
  - injection H as <-. destruct Hin.
  - cbn [map collect] in H. apply bind_inv_Ok in H.
    destruct H as (a & Ha & H). apply bind_inv_Ok in H.
    destruct H as (l & Hl & [= <-]).
    apply bind_inv_Ok in Ha. destruct Ha as (k & Hk & [= <-]).
    destruct Hin as [<-|Hin].
    + exists kv. cbn [fst snd]. auto using in_eq.
    + destruct (IH l Hl Hin) as (kv' & Hin' & Hk' & Hv').
      exists kv'. auto using in_cons.
Qed.

Lemma In_hashed_key_mapping items hashed kv :
  hashed_key_mapping items = Ok hashed -> In kv items ->
  exists k, fst kv = Ok k /\ In (k, snd kv) hashed.
Proof.
  unfold hashed_key_mapping. revert hashed.
  induction items as [|kv0 items IH]; intros hashed H Hin; [destruct Hin|].
  cbn [map collect] in H. apply bind_inv_Ok in H.
  destruct H as (a & Ha & H). apply bind_inv_Ok in H.
  destruct H as (l & Hl & [= <-]).
  apply bind_inv_Ok in Ha. destruct Ha as (k & Hk & [= <-]).
  destruct Hin as [<-|Hin].
  - exists k. auto using in_eq.
  - destruct (IH l Hl Hin) as (k' & Hk' & Hin'). exists k'. auto using in_cons.
Qed.

Lemma hash_mapping_Raise items e :
  hash_mapping items = Raise e ->
  exists kv, In kv items /\ (fst kv = Raise e \/ snd kv = Raise e).
Proof.
  unfold hash_mapping. intros H. apply bind_inv_Raise in H.
  destruct H as [H|(hashed & Hh & H)].
  - apply collect_Raise_In, in_map_iff in H.
    destruct H as (kv & Hkv & Hin). exists kv. split; [assumption|].
    left. destruct (fst kv); cbn [bind] in Hkv; congruence.
  - first_raises H.
    apply collect_Raise_In, in_map_iff in H.
    destruct H as (x & Hx & Hin). apply sorted_In in Hin.
    destruct (hashed_key_mapping_In _ _ _ Hh Hin) as (kv & Hin' & _ & Hv).
    exists kv. split; [assumption|]. right. rewrite Hv.
    destruct (snd x); cbn [bind] in Hx; congruence.
Qed.

Lemma hash_odict_Raise items e :
  hash_odict items = Raise e ->
  exists kv, In kv items /\ (fst kv = Raise e \/ snd kv = Raise e).
Proof.
  unfold hash_odict. intros H. first_raises H.
  apply collect_Raise_In, in_map_iff in H.
  destruct H as (kv & Hkv & Hin). exists kv. split; [assumption|].
  destruct (fst kv); [|left; cbn [bind] in Hkv; congruence].
  destruct (snd kv); [discriminate | right; cbn [bind] in Hkv; congruence].
Qed.

Lemma hash_sequence_Raise rs e : hash_sequence rs = Raise e -> In (Raise e) rs.
Proof.
  unfold hash_sequence. intros H. first_raises H.
  now apply collect_Raise_In.
Qed.

Lemma hash_set_Raise rs e : hash_set rs = Raise e -> In (Raise e) rs.
Proof.
  unfold hash_set. intros H. first_raises H.
  now apply collect_Raise_In.
Qed.

Lemma reason_in_list x l e :
  In x l -> raise_reason x e ->
  (e = ValueError /\ forallb supported l = false)
  \/ (e = UnicodeEncodeError /\ forallb encodable l = false).
Proof.
  intros Hin [[-> H]|[-> H]]; [left | right];
    (split; [reflexivity | now apply forallb_false_In with x]).
Qed.

Lemma reason_in_items (kv : value * value) items e :
  In kv items -> raise_reason (fst kv) e \/ raise_reason (snd kv) e ->
  (e = ValueError
   /\ forallb (fun kv => supported (fst kv) && supported (snd kv)) items
      = false)
  \/ (e = UnicodeEncodeError
      /\ forallb (fun kv => encodable (fst kv) && encodable (snd kv)) items
         = false).
Proof.
  intros Hin [[[-> H]|[-> H]]|[[-> H]|[-> H]]]; [left | right | left | right];
    (split; [reflexivity|]); apply forallb_false_In with kv; try assumption;
    rewrite H; auto using andb_false_r.
Qed.

Lemma items_Raise (f : value -> result (list bytes)) items e
    (kr : result (list bytes) * result (list bytes)) :
  Forall (fun kv => (forall e, f (fst kv) = Raise e -> raise_reason (fst kv) e)
                    /\ (forall e, f (snd kv) = Raise e
                                  -> raise_reason (snd kv) e)) items ->
  In kr (map (fun kv => (f (fst kv), f (snd kv))) items) ->
  fst kr = Raise e \/ snd kr = Raise e ->
  exists kv, In kv items
             /\ (raise_reason (fst kv) e \/ raise_reason (snd kv) e).
Proof.
  intros HF Hin H. apply in_map_iff in Hin. destruct Hin as (kv & <- & Hin).
  rewrite Forall_forall in HF. destruct (HF kv Hin) as [Hk Hv].
  exists kv. split; [assumption|]. cbn [fst snd] in H.
  destruct H as [H|H]; [left; now apply Hk | right; now apply Hv].
Qed.

(** An exception of the walk names its cause: [ValueError] a component
    without handler, [UnicodeEncodeError] a text with a surrogate. *)
Lemma _make_hash_Raise prec tzl (v : value) :
  forall kw e, _make_hash prec tzl kw v = Raise e -> raise_reason v e.
Proof.
  induction v as [ | | | | | | | |l IH|l IH|l IH|items IH|items IH| | | | ]
    using value_ind; intros kw e H; cbn [_make_hash] in H.
  - discriminate.
  - discriminate.
  - rewrite hash_integral_Ok in H. discriminate.
  - rewrite hash_real_Ok in H. discriminate.
  - destruct (hash_complex_Ok prec re im) as (d & Hd). congruence.
  - unfold hash_text in H. first_raises H.
    apply encode_utf8_Raise in H. right. exact H.
  - discriminate.
  - change (hash_sequence (map (fun x => hash_integral (int_of_byte x)) b))
      with (_make_hash prec tzl kw (VBytearray b)) in H.
    rewrite _make_hash_bytearray in H. discriminate.
  - apply hash_sequence_Raise, in_map_iff in H. destruct H as (x & Hx & Hin).
    rewrite Forall_forall in IH.
    apply (reason_in_list x l e Hin). eapply IH; eauto.
  - apply hash_sequence_Raise, in_map_iff in H. destruct H as (x & Hx & Hin).
    rewrite Forall_forall in IH.
    apply (reason_in_list x l e Hin). eapply IH; eauto.
  - apply hash_set_Raise, in_map_iff in H. destruct H as (x & Hx & Hin).
    rewrite Forall_forall in IH.
    apply (reason_in_list x l e Hin). eapply IH; eauto.
  - apply hash_mapping_Raise in H. destruct H as (kr & Hin & H).
    destruct (items_Raise (_make_hash prec tzl kw) items e kr) as (kv & Hkv & R);
      try assumption.
    { eapply Forall_impl; [|exact IH]. intros kv [Hk Hv]. split; eauto. }
    now apply (reason_in_items kv items e).
  - destruct (odict_as_unordered kw).
    + apply hash_mapping_Raise in H. destruct H as (kr & Hin & H).
      destruct (items_Raise (_make_hash prec tzl no_kwargs) items e kr)
        as (kv & Hkv & R); try assumption.
      { eapply Forall_impl; [|exact IH]. intros kv [Hk Hv]. split; eauto. }
      now apply (reason_in_items kv items e).
    + apply hash_odict_Raise in H. destruct H as (kr & Hin & H).
      destruct (items_Raise (_make_hash prec tzl kw) items e kr)
        as (kv & Hkv & R); try assumption.
      { eapply Forall_impl; [|exact IH]. intros kv [Hk Hv]. split; eauto. }
      now apply (reason_in_items kv items e).
  - destruct (hash_datetime_Ok prec tzl d) as (h & Hh). congruence.
  - discriminate.
  - apply hash_folder_Raise in H. right. exact H.
  - injection H as <-. left. split; reflexivity.
Qed.

Lemma hash_mapping_fails items (kr : result (list bytes) * result (list bytes)) :
  In kr items ->
  (exists e, fst kr = Raise e) \/ (exists e, snd kr = Raise e) ->
  exists e', hash_mapping items = Raise e'.
Proof.
  intros Hin H. unfold hash_mapping.
  destruct (hashed_key_mapping items) as [hashed|e'] eqn:Hh; [|cbn [bind]; eauto].
  cbn [bind].
  destruct (In_hashed_key_mapping _ _ _ Hh Hin) as (k & Hk & Hin').
  destruct H as [(e & He)|(e & He)]; [congruence|].
  destruct (collect_In_Raise
              (map (fun kv : list bytes * result (list bytes) =>
                      v <- snd kv ;; Ok (fst kv ++ v))
                   (sorted bytes_list_compare fst hashed)) e) as (e' & He').
  { apply in_map_iff. exists (k, snd kr). split.
    - cbn [fst snd]. now rewrite He.
    - now apply sorted_In. }
  rewrite He'. cbn [bind]. eauto.
Qed.

Lemma hash_odict_fails items (kr : result (list bytes) * result (list bytes)) :
  In kr items ->
  (exists e, fst kr = Raise e) \/ (exists e, snd kr = Raise e) ->
  exists e', hash_odict items = Raise e'.
Proof.
  intros Hin H. unfold hash_odict.
  assert (He : exists e,
             (k <- fst kr ;; v <- snd kr ;; Ok (k ++ v)) = Raise e).
  { destruct H as [(e & ->)|(e & ->)]; [cbn [bind]; eauto|].
    destruct (fst kr); cbn [bind]; eauto. }
  destruct He as (e & He).
  destruct (collect_In_Raise
              (map (fun kv : result (list bytes) * result (list bytes) =>
                      k <- fst kv ;; v <- snd kv ;; Ok (k ++ v)) items) e)
    as (e' & He').
  { apply in_map_iff. exists kr. auto. }
  rewrite He'. cbn [bind]. eauto.
Qed.

Lemma unsupported_item (f : value -> result (list bytes)) items :
  Forall (fun kv =>
            (supported (fst kv) = false -> exists e, f (fst kv) = Raise e)
            /\ (supported (snd kv) = false -> exists e, f (snd kv) = Raise e))
         items ->
  forallb (fun kv => supported (fst kv) && supported (snd kv)) items = false ->
  exists kr, In kr (map (fun kv => (f (fst kv), f (snd kv))) items)
             /\ ((exists e, fst kr = Raise e) \/ (exists e, snd kr = Raise e)).
Proof.
  intros HF H. apply forallb_false_exists in H. destruct H as (kv & Hin & H).
  rewrite Forall_forall in HF. destruct (HF kv Hin) as [Hk Hv].
  exists (f (fst kv), f (snd kv)). split.
  - apply in_map_iff. eauto.
  - cbn [fst snd]. apply andb_false_iff in H. destruct H as [H|H]; auto.
Qed.

(** A component without handler makes the walk raise. *)
Lemma _make_hash_unsupported prec tzl (v : value) :
  supported v = false ->
  forall kw, exists e, _make_hash prec tzl kw v = Raise e.
Proof.
  induction v as [ | | | | | | | |l IH|l IH|l IH|items IH|items IH| | | | ]
    using value_ind; cbn [supported]; intros H kw; try discriminate;
    cbn [_make_hash].
  - apply forallb_false_exists in H. destruct H as (x & Hin & Hx).
    rewrite Forall_forall in IH. destruct (IH x Hin Hx kw) as (e & He).
    destruct (collect_In_Raise (map (_make_hash prec tzl kw) l) e) as (e' & He').
    { apply in_map_iff. eauto. }
    unfold hash_sequence. rewrite He'. cbn [bind]. eauto.
  - apply forallb_false_exists in H. destruct H as (x & Hin & Hx).
    rewrite Forall_forall in IH. destruct (IH x Hin Hx kw) as (e & He).
    destruct (collect_In_Raise (map (_make_hash prec tzl kw) l) e) as (e' & He').
    { apply in_map_iff. eauto. }
    unfold hash_sequence. rewrite He'. cbn [bind]. eauto.
  - apply forallb_false_exists in H. destruct H as (x & Hin & Hx).
    rewrite Forall_forall in IH. destruct (IH x Hin Hx kw) as (e & He).
    destruct (collect_In_Raise (map (_make_hash prec tzl kw) l) e) as (e' & He').
    { apply in_map_iff. eauto. }
    unfold hash_set. rewrite He'. cbn [bind]. eauto.
  - destruct (unsupported_item (_make_hash prec tzl kw) items) as (kr & Hin & Hkr);
      try assumption.
    { eapply Forall_impl; [|exact IH]. intros kv [Hk Hv]. split; eauto. }
    now apply hash_mapping_fails with kr.
  - destruct (odict_as_unordered kw).
    + destruct (unsupported_item (_make_hash prec tzl no_kwargs) items)
        as (kr & Hin & Hkr); try assumption.
      { eapply Forall_impl; [|exact IH]. intros kv [Hk Hv]. split; eauto. }
      now apply hash_mapping_fails with kr.
    + destruct (unsupported_item (_make_hash prec tzl kw) items)
        as (kr & Hin & Hkr); try assumption.
      { eapply Forall_impl; [|exact IH]. intros kv [Hk Hv]. split; eauto. }
      now apply hash_odict_fails with kr.
  - eauto.
Qed.

Lemma make_hash_Raise_iff prec tzl kw v e :
  make_hash prec tzl kw v = Raise e <-> _make_hash prec tzl kw v = Raise e.
Proof.
  unfold make_hash. destruct (_make_hash prec tzl kw v); cbn [bind];
    split; congruence.
Qed.

(** C5 as stated fails: a [str] with a lone surrogate is built from the
    supported categories only, and hashing it raises
    [UnicodeEncodeError]. *)
Lemma C5_lone_surrogate_counterexample :
  supported lone_surrogate = true
  /\ make_hash 14 (fun _ => 0) no_kwargs lone_surrogate
     = Raise UnicodeEncodeError
  /\ ~ (forall v, supported v = true ->
                  exists d, make_hash 14 (fun _ => 0) no_kwargs v = Ok d).
Proof.
  assert (H : make_hash 14 (fun _ => 0) no_kwargs lone_surrogate
              = Raise UnicodeEncodeError) by (vm_compute; reflexivity).
  split; [reflexivity|]. split; [exact H|].
  intros Hall. destruct (Hall lone_surrogate eq_refl) as (d & Hd).
  rewrite H in Hd. discriminate.
Qed.

(** C5, amended. Take a value within the limits of the interpreter:
    every int has at most [int_max_str_digits] digits and the nesting is
    at most [max_nesting] deep. If every text and every folder entry
    name in it can be encoded as UTF-8, [make_hash] returns a digest
    exactly when every component is of a type with a handler, and raises
    [ValueError] exactly when some component is not. In any case an
    exception is a [ValueError] caused by a component without handler or
    a [UnicodeEncodeError] caused by a text with a surrogate; an
    exception of the walk always reaches the caller, and a value without
    handler raises [ValueError]. *)
Theorem C5_make_hash_failures prec tzl (kw : kwargs) (v : value) :
  within_limits v = true ->
  (encodable v = true ->
     ((exists d, make_hash prec tzl kw v = Ok d) <-> supported v = true)
     /\ (make_hash prec tzl kw v = Raise ValueError <-> supported v = false))
  /\ (forall e, make_hash prec tzl kw v = Raise e -> raise_reason v e)
  /\ (forall e, _make_hash prec tzl kw v = Raise e ->
                make_hash prec tzl kw v = Raise e)
  /\ make_hash prec tzl kw VObject = Raise ValueError.
Proof.
  intros _.
  assert (HR : forall e, make_hash prec tzl kw v = Raise e -> raise_reason v e).
  { intros e H. apply make_hash_Raise_iff in H.
    now apply _make_hash_Raise in H. }
  split; [|split; [exact HR | split; [|reflexivity]]].
  - intros Henc. split; split.
    + intros (d & Hd). destruct (supported v) eqn:Hs; [reflexivity|].
      destruct (_make_hash_unsupported prec tzl v Hs kw) as (e & He).
      apply make_hash_Raise_iff in He. congruence.
    + intros Hs. destruct (make_hash prec tzl kw v) as [d|e] eqn:E; [eauto|].
      destruct (HR e eq_refl) as [[_ H]|[_ H]]; congruence.
    + intros H. destruct (HR _ H) as [[_ H']|[H' _]];
        [assumption | discriminate].
    + intros Hs. destruct (_make_hash_unsupported prec tzl v Hs kw) as (e & He).
      apply make_hash_Raise_iff in He.
      destruct (HR e He) as [[-> _]|[_ H]]; [assumption | congruence].
  - intros e. apply make_hash_Raise_iff.
Qed.

Lemma C5_witness :
  within_limits sample_list = true
  /\ encodable sample_list = true
  /\ supported sample_list = true
  /\ exists d, make_hash 14 (fun _ => 0) no_kwargs sample_list = Ok d.
Proof.
  assert (Hl : within_limits sample_list = true) by (vm_compute; reflexivity).
  split; [exact Hl|]. split; [reflexivity|]. split; [reflexivity|].
  apply (proj2 (proj1 (proj1 (C5_make_hash_failures
                                14 (fun _ => 0) no_kwargs sample_list Hl)
                             eq_refl))).
  reflexivity.
Defined.


(** *** Iteration order of sets and mappings: what does hold *)

(** The hash of a set does not depend on its iteration order: the
    handler sorts the whole digest lists of the elements, and two lists
    that tie in that order are the same list. *)
Lemma set_hash_order_independent prec tzl kw l l' hs :
  Permutation l l' ->
  _make_hash prec tzl kw (VSet l) = Ok hs ->
  _make_hash prec tzl kw (VSet l') = Ok hs.
Proof.
  intros HP H. cbn [_make_hash] in *. unfold hash_set in *.
  apply bind_inv_Ok in H. destruct H as (ds & Hds & H).
  destruct (collect_Permutation _ _
              (Permutation_map (_make_hash prec tzl kw) HP) _ Hds)
    as (ds' & Hds' & HPd).
  rewrite Hds'. cbn [bind].
  rewrite <- (sorted_of_Permutation bytes_list_compare (fun h => h)
                bytes_list_compare_total_order ds ds'); [exact H| |exact HPd].
  intros x y _ _. apply (cmp_eq _ bytes_list_compare_total_order).
Qed.

Lemma NoDup_map_eq {A B : Type} (f : A -> B) (l : list A) a b :
  NoDup (map f l) -> In a l -> In b l -> f a = f b -> a = b.
Proof.
  induction l as [|x l IH]; intros Hnd Ha Hb Hf; [destruct Ha|].
  cbn [map] in Hnd. apply NoDup_cons_iff in Hnd. destruct Hnd as [Hx Hnd].
  destruct Ha as [<-|Ha], Hb as [<-|Hb]; auto.
  - exfalso. apply Hx. rewrite Hf. now apply in_map.
  - exfalso. apply Hx. rewrite <- Hf. now apply in_map.
Qed.

(** The hash of a mapping does not depend on its iteration order when no
    two keys have the same key digests. *)
Lemma mapping_hash_order_independent prec tzl kw items items' hs :
  Permutation items items' ->
  NoDup (map (fun kv => _make_hash prec tzl kw (fst kv)) items) ->
  _make_hash prec tzl kw (VDict items) = Ok hs ->
  _make_hash prec tzl kw (VDict items') = Ok hs.
Proof.
  intros HP Hnd H. cbn [_make_hash] in *. unfold hash_mapping in *.
  set (f := fun kv : value * value =>
              (_make_hash prec tzl kw (fst kv),
               _make_hash prec tzl kw (snd kv))) in *.
  apply bind_inv_Ok in H. destruct H as (hashed & Hh & H).
  pose proof Hh as Hh0. unfold hashed_key_mapping in Hh.
  destruct (collect_Permutation _ _
              (Permutation_map
                 (fun kv : result (list bytes) * result (list bytes) =>
                    k <- fst kv ;; Ok (k, snd kv))
                 (Permutation_map f HP)) _ Hh)
    as (hashed' & Hh' & HPh).
  unfold hashed_key_mapping. rewrite Hh'. cbn [bind].
  rewrite <- (sorted_of_Permutation bytes_list_compare fst
                bytes_list_compare_total_order hashed hashed');
    [exact H| |exact HPh].
  intros x y Hx Hy Hxy.
  apply (cmp_eq _ bytes_list_compare_total_order) in Hxy.
  destruct (hashed_key_mapping_In _ _ _ Hh0 Hx) as (kx & Hkx & Hfx & Hsx).
  destruct (hashed_key_mapping_In _ _ _ Hh0 Hy) as (ky & Hky & Hfy & Hsy).
  assert (E : kx = ky).
  { apply (NoDup_map_eq fst (map f items)); try assumption.
    - now rewrite map_map.
    - congruence. }
  destruct x as [x1 x2], y as [y1 y2]. cbn [fst snd] in *. congruence.
Qed.

(** ** Further properties of the hashing functions *)

(** *** Iteration order *)

(** X1. The hash of a set is the same for every iteration order of its
    elements: one order gives a digest exactly when another does, and
    then the same digest. *)
Theorem X1_set_hash_ignores_iteration_order prec tzl kw l l' :
  Permutation l l' ->
  forall d, make_hash prec tzl kw (VSet l) = Ok d
            <-> make_hash prec tzl kw (VSet l') = Ok d.
Proof.
  assert (H : forall l l', Permutation l l' ->
              forall d, make_hash prec tzl kw (VSet l) = Ok d ->
                        make_hash prec tzl kw (VSet l') = Ok d).
  { clear l l'. intros l l' HP d Hd. unfold make_hash in *.
    apply bind_inv_Ok in Hd. destruct Hd as (hs & Hhs & Hd).
    now rewrite (set_hash_order_independent _ _ _ _ _ _ HP Hhs). }
  intros HP d. split; apply H; [assumption | now symmetry].
Qed.

Lemma X1_witness :
  Permutation [VInt 3; VInt 1; VInt 2] [VInt 1; VInt 2; VInt 3]
  /\ make_hash 14 (fun _ => 0) no_kwargs (VSet [VInt 1; VInt 2; VInt 3])
     = Ok "a11cff8e62b57e1aefb7de908bd50096816b66796eb7e11ad78edeaf2629f89c"%string.
Proof.
  assert (HP : Permutation [VInt 3; VInt 1; VInt 2]
                           [VInt 1; VInt 2; VInt 3]).
  { apply perm_trans with [VInt 1; VInt 3; VInt 2];
      [apply perm_swap | apply perm_skip, perm_swap]. }
  split; [exact HP|].
  apply (proj1 (X1_set_hash_ignores_iteration_order
                  14 (fun _ => 0) no_kwargs _ _ HP _)).
  vm_compute. reflexivity.
Defined.

(** X2. The hash of a mapping is the same for every iteration order of
    its items, provided no two keys have the same key digests. *)
Theorem X2_mapping_hash_ignores_iteration_order prec tzl kw items items' :
  Permutation items items' ->
  NoDup (map (fun kv => _make_hash prec tzl kw (fst kv)) items) ->
  forall d, make_hash prec tzl kw (VDict items) = Ok d
            <-> make_hash prec tzl kw (VDict items') = Ok d.
Proof.
  assert (H : forall items items', Permutation items items' ->
              NoDup (map (fun kv => _make_hash prec tzl kw (fst kv)) items) ->
              forall d, make_hash prec tzl kw (VDict items) = Ok d ->
                        make_hash prec tzl kw (VDict items') = Ok d).
  { clear items items'. intros items items' HP Hnd d Hd. unfold make_hash in *.
    apply bind_inv_Ok in Hd. destruct Hd as (hs & Hhs & Hd).
    now rewrite (mapping_hash_order_independent _ _ _ _ _ _ HP Hnd Hhs). }
  intros HP Hnd d. split; apply H; try assumption; [now symmetry|].
  eapply Permutation_NoDup; [|exact Hnd].
  now apply Permutation_map.
Qed.

Lemma X2_witness :
  make_hash 14 (fun _ => 0) no_kwargs
    (VDict [(VStr (text_of_string "a"), VInt 2);
            (VStr (text_of_string "b"), VInt 1)])
  = Ok "016368a8223b04f533191286bf0a59262db10bcd53a1f80549feb63f9b7f5252"%string.
Proof.
  assert (Hnd : NoDup (map (fun kv : value * value =>
                              _make_hash 14 (fun _ => 0) no_kwargs (fst kv))
                           [(VStr (text_of_string "b"), VInt 1);
                            (VStr (text_of_string "a"), VInt 2)])).
  { apply NoDup_cons; [|apply NoDup_cons; [intros [] | apply NoDup_nil]].
    simpl. intros [H|[]]. vm_compute in H. discriminate H. }
  apply (proj1 (X2_mapping_hash_ignores_iteration_order
                  14 (fun _ => 0) no_kwargs
                  [(VStr (text_of_string "b"), VInt 1);
                   (VStr (text_of_string "a"), VInt 2)]
                  [(VStr (text_of_string "a"), VInt 2);
                   (VStr (text_of_string "b"), VInt 1)]
                  (perm_swap _ _ _) Hnd _)).
  vm_compute. reflexivity.
Defined.

(** *** Keyword arguments *)

(** X3. The keywords [odict_as_unordered] and [ignored_folder_content]
    reach the handlers of [OrderedDict] and [Folder] only, and
    [float_precision] reaches none: a value with no component of these
    two types has the same hash, or raises the same exception, under any
    two settings of these three keywords. *)
Theorem X3_kwargs_matter_for_odict_and_folder_only prec tzl (v : value) :
  reads_no_kwargs v = true ->
  forall kw kw', make_hash prec tzl kw v = make_hash prec tzl kw' v.
Proof.
  intros H kw kw'. unfold make_hash.
  now rewrite (_make_hash_reads_no_kwargs prec tzl v H kw kw').
Qed.

Lemma X3_witness :
  make_hash 14 (fun _ => 0) kwargs_unordered sample_list
  = make_hash 14 (fun _ => 0) kwargs_ignore_tmp sample_list.
Proof.
  apply (X3_kwargs_matter_for_odict_and_folder_only
           14 (fun _ => 0) sample_list).
  reflexivity.
Defined.

(** X4. With [odict_as_unordered=True], an ordered mapping whose keys
    and values hold no further [OrderedDict] and no [Folder] has the hash
    of the dict with the same items, under the same keyword arguments. *)
Theorem X4_flat_odict_hashed_as_dict prec tzl kw items :
  odict_as_unordered kw = true ->
  forallb (fun kv => reads_no_kwargs (fst kv) && reads_no_kwargs (snd kv))
          items = true ->
  make_hash prec tzl kw (VOrderedDict items)
  = make_hash prec tzl kw (VDict items).
Proof. apply flat_odict_as_unordered. Qed.

Lemma X4_witness :
  make_hash 14 (fun _ => 0) kwargs_unordered
    (VOrderedDict [(VStr (text_of_string "b"), VInt 1);
                   (VStr (text_of_string "a"), VList [VInt 2])])
  = make_hash 14 (fun _ => 0) kwargs_unordered
      (VDict [(VStr (text_of_string "b"), VInt 1);
              (VStr (text_of_string "a"), VList [VInt 2])]).
Proof.
  apply (X4_flat_odict_hashed_as_dict 14 (fun _ => 0) kwargs_unordered);
    reflexivity.
Defined.

(** *** Folders: listing order and ignore-list *)

Lemma folder_digests_Relisted ign c c' :
  Relisted c c' -> folder_digests ign c' = folder_digests ign c.
Proof.
  intros H. induction H as [c c' Hnd HP|l1 l2 n c c' H IH].
  - unfold folder_digests, folder_walk.
    set (f := fun ne : text * fs_entry =>
                (fst ne, entry_digests ign (fst ne) (snd ne))).
    rewrite (sorted_of_Permutation text_compare fst text_compare_total_order
               (map f c) (map f c')); [reflexivity| |now apply Permutation_map].
    intros x y Hx Hy Hxy.
    apply (cmp_eq _ text_compare_total_order) in Hxy.
    apply in_map_iff in Hx, Hy.
    destruct Hx as (ex & <- & Hex), Hy as (ey & <- & Hey).
    cbn [f fst] in Hxy.
    now rewrite (NoDup_map_eq fst c ex ey Hnd Hex Hey Hxy).
  - unfold folder_digests. rewrite !map_app. cbn [map fst snd].
    now rewrite !entry_digests_Dir, IH.
Qed.

(** X5. The hash of a folder does not depend on the order in which
    [get_content_list] lists the entries of the folder or of any of its
    subfolders: the walk sorts each listing by name. *)
Theorem X5_folder_hash_ignores_listing_order prec tzl kw c c' :
  Relisted c c' ->
  make_hash prec tzl kw (VFolder c') = make_hash prec tzl kw (VFolder c).
Proof.
  intros H. unfold make_hash. cbn [_make_hash]. unfold hash_folder.
  now rewrite (folder_digests_Relisted _ _ _ H).
Qed.

Lemma X5_witness :
  make_hash 14 (fun _ => 0) no_kwargs
    (VFolder [(text_of_string "c.txt", File (bytes_of_string "y"));
              (text_of_string "a.txt", File (bytes_of_string "x"))])
  = make_hash 14 (fun _ => 0) no_kwargs (VFolder sample_folder_new).
Proof.
  apply (X5_folder_hash_ignores_listing_order 14 (fun _ => 0) no_kwargs).
  apply Relisted_here; [|apply perm_swap].
  apply NoDup_cons; [|apply NoDup_cons; [intros [] | apply NoDup_nil]].
  simpl. intros [H|[]]. vm_compute in H. discriminate H.
Defined.

Lemma existsb_text_eqb_ext (ign ign' : list text) (name : text) :
  (forall n, In n ign <-> In n ign') ->
  existsb (text_eqb name) ign = existsb (text_eqb name) ign'.
Proof.
  intros H.
  destruct (existsb (text_eqb name) ign) eqn:E,
           (existsb (text_eqb name) ign') eqn:E'; try reflexivity.
  - apply existsb_text_eqb, H, existsb_text_eqb in E. congruence.
  - apply existsb_text_eqb, H, existsb_text_eqb in E'. congruence.
Qed.

Lemma folder_digests_ignore_ext ign ign' content :
  (forall n, In n ign <-> In n ign') ->
  Forall (fun ne : text * fs_entry =>
            forall name, entry_digests ign name (snd ne)
                         = entry_digests ign' name (snd ne)) content ->
  folder_digests ign content = folder_digests ign' content.
Proof.
  intros H HF. unfold folder_digests, folder_walk.
  replace (map (fun ne : text * fs_entry =>
                  (fst ne, entry_digests ign' (fst ne) (snd ne))) content)
    with (map (fun ne : text * fs_entry =>
                 (fst ne, entry_digests ign (fst ne) (snd ne))) content).
  - erewrite filter_ext; [reflexivity|].
    intros ne. cbv beta. now rewrite (existsb_text_eqb_ext ign ign').
  - apply map_ext_Forall. eapply Forall_impl; [|exact HF].
    intros ne Hne. cbv beta. now rewrite Hne.
Qed.

Lemma entry_digests_ignore_ext ign ign' (e : fs_entry) :
  (forall n, In n ign <-> In n ign') ->
  forall name, entry_digests ign name e = entry_digests ign' name e.
Proof.
  intros H. induction e as [data|content IH] using fs_entry_ind; intros name.
  - reflexivity.
  - rewrite !entry_digests_Dir.
    now rewrite (folder_digests_ignore_ext ign ign' content H IH).
Qed.

(** X6. The ignore-list is used as a set: two lists with the same
    members, in any order and with any repetitions, give a folder the
    same hash. *)
Theorem X6_ignore_list_is_a_set prec tzl kw kw' c :
  (forall n, In n (ignored_folder_content kw)
             <-> In n (ignored_folder_content kw')) ->
  make_hash prec tzl kw (VFolder c) = make_hash prec tzl kw' (VFolder c).
Proof.
  intros H. unfold make_hash. cbn [_make_hash]. unfold hash_folder.
  rewrite (folder_digests_ignore_ext _ _ c H); [reflexivity|].
  apply Forall_forall. intros ne _ name.
  now apply entry_digests_ignore_ext.
Qed.

Lemma X6_witness :
  make_hash 14 (fun _ => 0)
    {| odict_as_unordered := false;
       ignored_folder_content :=
         [text_of_string "b.tmp"; text_of_string "b.tmp"];
       float_precision := None |}
    (VFolder sample_folder_tmp)
  = make_hash 14 (fun _ => 0) kwargs_ignore_tmp (VFolder sample_folder_tmp).
Proof.
  apply (X6_ignore_list_is_a_set 14 (fun _ => 0)).
  intros n. simpl. tauto.
Defined.

(** X7. A folder all of whose entries are in the ignore-list hashes like
    the empty folder; what the entries are, and whether their names can
    be encoded, plays no part. *)
Theorem X7_all_ignored_is_empty_folder prec tzl kw c :
  (forall ne, In ne c -> In (fst ne) (ignored_folder_content kw)) ->
  make_hash prec tzl kw (VFolder c) = make_hash prec tzl kw (VFolder []).
Proof.
  intros H. unfold make_hash. cbn [_make_hash]. unfold hash_folder.
  unfold folder_digests, folder_walk.
  rewrite !(filter_sorted text_compare fst text_compare_total_order).
  replace (filter _ (map _ c)) with (@nil (text * result (list bytes)));
    [reflexivity|].
  symmetry. induction c as [|ne c IH]; [reflexivity|].
  cbn [map filter fst].
  assert (E : existsb (text_eqb (fst ne)) (ignored_folder_content kw) = true).
  { apply existsb_text_eqb, H. now left. }
  rewrite E. cbn [negb]. apply IH. intros; apply H; now right.
Qed.

Lemma X7_witness :
  make_hash 14 (fun _ => 0) kwargs_ignore_tmp
    (VFolder [([55296%N], File []);
              (text_of_string "b.tmp", File (bytes_of_string "junk"))])
  <> make_hash 14 (fun _ => 0) kwargs_ignore_tmp (VFolder [])
  /\ make_hash 14 (fun _ => 0) kwargs_ignore_tmp
       (VFolder [(text_of_string "b.tmp", File (bytes_of_string "junk"))])
     = make_hash 14 (fun _ => 0) kwargs_ignore_tmp (VFolder []).
Proof.
  split; [vm_compute; discriminate|].
  apply (X7_all_ignored_is_empty_folder 14 (fun _ => 0) kwargs_ignore_tmp).
  intros ne [<-|[]]. simpl. left. reflexivity.
Defined.

(** *** The size of the digests *)

Lemma compress_length h block t last last_node :
  length (Blake2b.compress h block t last last_node) = 8%nat.
Proof. unfold Blake2b.compress. now rewrite length_map, length_seq. Qed.

Lemma absorb_length fuel p h t data :
  length h = 8%nat -> length (Blake2b.absorb fuel p h t data) = 8%nat.
Proof.
  revert h t data. induction fuel as [|k IH]; intros h t data Hh; [exact Hh|].
  cbn [Blake2b.absorb]. destruct (128 <? Z.of_nat (length data)).
  - apply IH, compress_length.
  - apply compress_length.
Qed.

Lemma le_bytes_length n w : length (Blake2b.le_bytes n w) = n.
Proof.
  revert w. induction n as [|n IH]; intros w; [reflexivity|].
  cbn [Blake2b.le_bytes length]. now rewrite IH.
Qed.

(** BLAKE2b returns [digest_size] bytes. *)
Lemma blake2b_length p data :
  0 <= Blake2b.digest_size p <= 64 ->
  length (Blake2b.blake2b p data) = Z.to_nat (Blake2b.digest_size p).
Proof.
  intros Hp. unfold Blake2b.blake2b. rewrite length_firstn.
  assert (H : length (flat_map (Blake2b.le_bytes 8)
                        (Blake2b.absorb (S (length data)) p (Blake2b.init p)
                                        0 data)) = 64%nat).
  { rewrite length_flat_map.
    pose proof (absorb_length (S (length data)) p (Blake2b.init p) 0 data)
      as Hl.
    assert (Hi : length (Blake2b.init p) = 8%nat)
      by (unfold Blake2b.init; now rewrite length_map, length_seq).
    specialize (Hl Hi).
    destruct (Blake2b.absorb (S (length data)) p (Blake2b.init p) 0 data)
      as [|a0 [|a1 [|a2 [|a3 [|a4 [|a5 [|a6 [|a7 [|a8 l]]]]]]]]];
      try discriminate Hl.
    cbn [map list_sum]. rewrite !le_bytes_length. reflexivity. }
  rewrite H. lia.
Qed.

Lemma _single_digest_length obj_type obj_bytes :
  length (_single_digest obj_type obj_bytes) = 32%nat.
Proof.
  unfold _single_digest, digest. rewrite blake2b_length; cbn; [reflexivity|lia].
Qed.

Lemma hexlify_length bs :
  String.length (hexlify bs) = (2 * length bs)%nat.
Proof.
  induction bs as [|b bs IH]; [reflexivity|].
  cbn [hexlify String.length length]. rewrite IH. lia.
Qed.

Lemma hex_digit_lower n : (n < 16)%N -> lower_hex (hex_digit n).
Proof.
  intros H. unfold lower_hex, hex_digit. apply nth_In.
  change (length (list_ascii_of_string "0123456789abcdef")) with 16%nat. lia.
Qed.

Lemma hexlify_lower bs : Forall lower_hex (list_ascii_of_string (hexlify bs)).
Proof.
  induction bs as [|b bs IH]; [constructor|].
  cbn [hexlify list_ascii_of_string].
  pose proof (Byte.to_N_bounded b) as Hb.
  constructor; [|constructor; [|exact IH]]; apply hex_digit_lower.
  - apply N.Div0.div_lt_upper_bound. lia.
  - apply N.mod_lt. discriminate.
Qed.

(** X8. Every call of [make_hash] that returns gives a string of 64
    lower-case hexadecimal digits. *)
Theorem X8_make_hash_gives_64_hex_digits prec tzl kw v d :
  make_hash prec tzl kw v = Ok d ->
  String.length d = 64%nat /\ Forall lower_hex (list_ascii_of_string d).
Proof.
  unfold make_hash. intros H. apply bind_inv_Ok in H.
  destruct H as (hs & _ & H). apply Ok_inj in H. subst d.
  unfold root_hexdigest, hexdigest. split; [|apply hexlify_lower].
  rewrite hexlify_length. unfold digest.
  rewrite blake2b_length.
  - replace (obj_params (update (fold_left update hs final_hash)
                                (Blake2b.blake2b (obj_params empty_leaf)
                                                 (obj_data empty_leaf))))
      with (BLAKE2B_OPTIONS [] 1 true); [reflexivity|].
    cbn [update obj_params]. clear.
    assert (E : forall h, obj_params (fold_left update hs h) = obj_params h).
    { induction hs as [|x hs IH]; intros h; [reflexivity|].
      cbn [fold_left]. now rewrite IH. }
    now rewrite E.
  - assert (E : forall hs h, obj_params (fold_left update hs h) = obj_params h).
    { clear. induction hs as [|x hs IH]; intros h; [reflexivity|].
      cbn [fold_left]. now rewrite IH. }
    cbn [update obj_params]. rewrite E. cbn. lia.
Qed.

Lemma X8_witness :
  String.length
    "1729486cc7e56a6383542b1ec73125ccb26093651a5da05e04657ac416a74b8f" = 64%nat.
Proof.
  apply (X8_make_hash_gives_64_hex_digits 14 (fun _ => 0) no_kwargs VNone).
  vm_compute. reflexivity.
Defined.

Lemma collect_Forall {A : Type} (P : A -> Prop) (rs : list (result A)) l :
  (forall r a, In r rs -> r = Ok a -> P a) ->
  collect rs = Ok l -> Forall P l.
Proof.
  revert l. induction rs as [|r rs IH]; intros l HP H.
  - apply Ok_inj in H. subst. constructor.
  - cbn [collect] in H. apply bind_inv_Ok in H. destruct H as (a & Ha & H).
    apply bind_inv_Ok in H. destruct H as (l' & Hl' & H).
    apply Ok_inj in H. subst l. constructor.
    + apply (HP r a); [now left | assumption].
    + apply IH; [|assumption]. intros r0 a0 Hin. apply HP. now right.
Qed.

Lemma leaves32_bracket tag (dss : list (list bytes)) :
  Forall (Forall (fun h : bytes => length h = 32%nat)) dss ->
  Forall (fun h : bytes => length h = 32%nat)
         ([_single_digest tag []] ++ concat dss ++ [_END_DIGEST]).
Proof.
  intros H. apply Forall_app. split.
  - constructor; [apply _single_digest_length | constructor].
  - apply Forall_app. split; [now apply Forall_concat|].
    constructor; [reflexivity | constructor].
Qed.

Lemma hash_sequence_leaves32 rs :
  (forall r, In r rs -> leaves32 r) -> leaves32 (hash_sequence rs).
Proof.
  intros Hrs hs H. unfold hash_sequence in H.
  apply bind_inv_Ok in H. destruct H as (dss & Hc & H).
  apply Ok_inj in H. subst hs. apply leaves32_bracket.
  apply (collect_Forall _ rs); [|assumption].
  intros r a Hin Hr. now apply (Hrs r Hin).
Qed.

Lemma hash_set_leaves32 rs :
  (forall r, In r rs -> leaves32 r) -> leaves32 (hash_set rs).
Proof.
  intros Hrs hs H. unfold hash_set in H.
  apply bind_inv_Ok in H. destruct H as (dss & Hc & H).
  apply Ok_inj in H. subst hs. apply leaves32_bracket.
  eapply Permutation_Forall; [symmetry; apply sorted_Permutation|].
  apply (collect_Forall _ rs); [|assumption].
  intros r a Hin Hr. now apply (Hrs r Hin).
Qed.

Lemma hash_mapping_leaves32 items :
  (forall kv, In kv items -> leaves32 (fst kv) /\ leaves32 (snd kv)) ->
  leaves32 (hash_mapping items).
Proof.
  intros Hitems hs H. unfold hash_mapping in H.
  apply bind_inv_Ok in H. destruct H as (hashed & Hh & H).
  apply bind_inv_Ok in H. destruct H as (dss & Hc & H).
  apply Ok_inj in H. subst hs. apply leaves32_bracket.
  eapply collect_Forall; [|exact Hc].
  intros r a Hin Hr. apply in_map_iff in Hin. destruct Hin as (x & <- & Hx).
  apply sorted_In in Hx.
  destruct (hashed_key_mapping_In _ _ _ Hh Hx) as (kv & Hkv & Hk & Hv).
  destruct (Hitems kv Hkv) as [Lk Lv].
  apply bind_inv_Ok in Hr. destruct Hr as (vd & Hvd & Hr).
  apply Ok_inj in Hr. subst a. apply Forall_app. split.
  - now apply Lk.
  - apply Lv. now rewrite Hv.
Qed.

Lemma hash_odict_leaves32 items :
  (forall kv, In kv items -> leaves32 (fst kv) /\ leaves32 (snd kv)) ->
  leaves32 (hash_odict items).
Proof.
  intros Hitems hs H. unfold hash_odict in H.
  apply bind_inv_Ok in H. destruct H as (dss & Hc & H).
  apply Ok_inj in H. subst hs. apply leaves32_bracket.
  eapply collect_Forall; [|exact Hc].
  intros r a Hin Hr. apply in_map_iff in Hin. destruct Hin as (kv & <- & Hkv).
  destruct (Hitems kv Hkv) as [Lk Lv].
  apply bind_inv_Ok in Hr. destruct Hr as (kd & Hkd & Hr).
  apply bind_inv_Ok in Hr. destruct Hr as (vd & Hvd & Hr).
  apply Ok_inj in Hr. subst a. apply Forall_app. split; [now apply Lk | now apply Lv].
Qed.

Lemma folder_digests_leaves32 ign content :
  Forall (fun ne : text * fs_entry =>
            forall name, leaves32 (entry_digests ign name (snd ne))) content ->
  leaves32 (folder_digests ign content).
Proof.
  intros HF hs H. unfold folder_digests, folder_walk in H.
  apply bind_inv_Ok in H. destruct H as (dss & Hc & H).
  apply Ok_inj in H. subst hs. apply Forall_concat.
  eapply collect_Forall; [|exact Hc].
  intros r a Hin Hr. apply in_map_iff in Hin. destruct Hin as (x & <- & Hx).
  apply filter_In in Hx. destruct Hx as [Hx _]. apply sorted_In in Hx.
  apply in_map_iff in Hx. destruct Hx as (ne & <- & Hne).
  rewrite Forall_forall in HF. now apply (HF ne Hne (fst ne)).
Qed.

Lemma entry_digests_leaves32 ign (e : fs_entry) :
  forall name, leaves32 (entry_digests ign name e).
Proof.
  induction e as [data|content IH] using fs_entry_ind; intros name hs H.
  - cbn [entry_digests] in H. apply bind_inv_Ok in H.
    destruct H as (b & _ & H). apply Ok_inj in H. subst hs.
    repeat constructor; apply _single_digest_length.
  - rewrite entry_digests_Dir in H. apply bind_inv_Ok in H.
    destruct H as (b & _ & H). apply bind_inv_Ok in H.
    destruct H as (sub & Hsub & H). apply Ok_inj in H. subst hs.
    apply Forall_app. split;
      [constructor; [apply _single_digest_length | constructor]|].
    apply Forall_app. split.
    + now apply (folder_digests_leaves32 ign content IH).
    + constructor; [reflexivity | constructor].
Qed.

Lemma leaves32_single (r : result bytes) tag :
  leaves32 (b <- r ;; Ok [_single_digest tag b]).
Proof.
  intros hs H. apply bind_inv_Ok in H. destruct H as (b & _ & H).
  apply Ok_inj in H. subst hs.
  constructor; [apply _single_digest_length | constructor].
Qed.

Lemma _make_hash_leaves32 prec tzl (v : value) :
  forall kw, leaves32 (_make_hash prec tzl kw v).
Proof.
  induction v as [ | | | | | | | |l IH|l IH|l IH|items IH|items IH| | | | ]
    using value_ind; intros kw; cbn [_make_hash].
  - apply (leaves32_single (Ok [])).
  - apply (leaves32_single (Ok (if b then [x01] else [x00]))).
  - apply leaves32_single.
  - apply leaves32_single.
  - apply leaves32_single.
  - apply leaves32_single.
  - apply (leaves32_single (Ok b)).
  - apply hash_sequence_leaves32. intros r Hin.
    apply in_map_iff in Hin. destruct Hin as (x & <- & _).
    apply leaves32_single.
  - apply hash_sequence_leaves32. intros r Hin.
    apply in_map_iff in Hin. destruct Hin as (x & <- & Hx).
    rewrite Forall_forall in IH. now apply IH.
  - apply hash_sequence_leaves32. intros r Hin.
    apply in_map_iff in Hin. destruct Hin as (x & <- & Hx).
    rewrite Forall_forall in IH. now apply IH.
  - apply hash_set_leaves32. intros r Hin.
    apply in_map_iff in Hin. destruct Hin as (x & <- & Hx).
    rewrite Forall_forall in IH. now apply IH.
  - apply hash_mapping_leaves32. intros kr Hin.
    apply in_map_iff in Hin. destruct Hin as (kv & <- & Hkv).
    rewrite Forall_forall in IH. destruct (IH kv Hkv) as [Hk Hv].
    split; [apply Hk | apply Hv].
  - rewrite Forall_forall in IH. destruct (odict_as_unordered kw).
    + apply hash_mapping_leaves32. intros kr Hin.
      apply in_map_iff in Hin. destruct Hin as (kv & <- & Hkv).
      destruct (IH kv Hkv) as [Hk Hv]. split; [apply Hk | apply Hv].
    + apply hash_odict_leaves32. intros kr Hin.
      apply in_map_iff in Hin. destruct Hin as (kv & <- & Hkv).
      destruct (IH kv Hkv) as [Hk Hv]. split; [apply Hk | apply Hv].
  - rewrite hash_datetime_instant. apply leaves32_single.
  - apply (leaves32_single (Ok (uuid_bytes i))).
  - intros hs H. unfold hash_folder in H. apply bind_inv_Ok in H.
    destruct H as (ds & Hds & H). apply Ok_inj in H. subst hs.
    apply Forall_app. split;
      [constructor; [apply _single_digest_length | constructor]|].
    eapply folder_digests_leaves32; [|exact Hds].
    apply Forall_forall. intros ne _. apply entry_digests_leaves32.
  - intros hs H. discriminate H.
Qed.

(** X9. The walk of a value yields at least one leaf digest, and every
    leaf digest it yields has 32 bytes, so the root node can tell where
    one ends and the next begins. *)
Theorem X9_leaf_digests_have_32_bytes prec tzl kw v hs :
  _make_hash prec tzl kw v = Ok hs ->
  hs <> [] /\ Forall (fun h : bytes => length h = 32%nat) hs.
Proof.
  intros H. split; [|now apply (_make_hash_leaves32 prec tzl v kw)].
  intros ->. destruct v; cbn [_make_hash] in H;
    try discriminate H;
    unfold hash_text, hash_sequence, hash_set, hash_mapping, hash_odict,
      hash_real, hash_complex, hash_integral, hash_datetime, hash_folder in H;
    try (destruct (odict_as_unordered kw));
    unfold hash_mapping, hash_odict in H;
    repeat (apply bind_inv_Ok in H; destruct H as (? & _ & H));
    discriminate H.
Qed.

Lemma X9_witness :
  exists hs, _make_hash 14 (fun _ => 0) no_kwargs sample_list = Ok hs
             /\ hs <> [] /\ Forall (fun h : bytes => length h = 32%nat) hs.
Proof.
  eexists. split; [vm_compute; reflexivity|].
  apply (X9_leaf_digests_have_32_bytes 14 (fun _ => 0) no_kwargs sample_list).
  vm_compute. reflexivity.
Defined.

(** *** The payloads of numbers *)

Lemma decimal_fuel_digits fuel n acc :
  Forall (fun c => 48 <= c <= 57)%N acc ->
  Forall (fun c => 48 <= c <= 57)%N (decimal_fuel fuel n acc).
Proof.
  revert n acc. induction fuel as [|k IH]; intros n acc H; [exact H|].
  cbn [decimal_fuel].
  assert (H' : Forall (fun c => 48 <= c <= 57)%N
                      ((48 + Z.to_N (n mod 10))%N :: acc)).
  { constructor; [|exact H].
    pose proof (Z.mod_pos_bound n 10 ltac:(lia)). lia. }
  destruct (n <? 10); [exact H' | now apply IH].
Qed.

Lemma decimal_digits n : Forall (fun c => 48 <= c <= 57)%N (decimal n).
Proof. apply decimal_fuel_digits. constructor. Qed.

Lemma decimal_inj a b : 0 <= a -> 0 <= b -> decimal a = decimal b -> a = b.
Proof.
  intros Ha Hb H. apply (f_equal digits_value) in H.
  now rewrite !decimal_value in H.
Qed.

(** The decimal text of an integer determines the integer. *)
Lemma format_int_inj a b : format_int a = format_int b -> a = b.
Proof.
  unfold format_int.
  destruct (a <? 0) eqn:Ea, (b <? 0) eqn:Eb; intros H.
  - injection H as H. apply Z.ltb_lt in Ea, Eb.
    apply decimal_inj in H; lia.
  - pose proof (decimal_digits b) as Hd. rewrite <- H in Hd.
    apply Forall_inv in Hd. lia.
  - pose proof (decimal_digits a) as Hd. rewrite H in Hd.
    apply Forall_inv in Hd. lia.
  - apply Z.ltb_ge in Ea, Eb. now apply decimal_inj.
Qed.

Lemma byte_of_N_to_N n : (n < 256)%N -> Byte.to_N (byte_of_N n) = n.
Proof.
  intros H. unfold byte_of_N.
  pose proof (Byte.to_of_N_option_map n) as E.
  replace (n <=? 255)%N with true in E by (symmetry; apply N.leb_le; lia).
  destruct (Byte.of_N n); cbn in E; congruence.
Qed.

Lemma map_byte_of_N_inj (s s' : text) :
  ascii_text s -> ascii_text s' ->
  map byte_of_N s = map byte_of_N s' -> s = s'.
Proof.
  intros Hs. revert s'. induction Hs as [|c s Hc Hs IH]; intros s' Hs' H.
  - destruct s'; [reflexivity | discriminate].
  - destruct Hs' as [|c' s' Hc' Hs']; [discriminate|].
    cbn [map] in H. injection H as Hh Ht.
    apply (f_equal Byte.to_N) in Hh.
    rewrite !byte_of_N_to_N in Hh by lia.
    subst c'. f_equal. now apply IH.
Qed.

(** X10. Two different integers, each of at most [int_max_str_digits]
    digits so that the interpreter converts it, hand different payloads
    to the leaf digest under tag "int": the decimal text of an integer
    determines it. *)
Theorem X10_int_payload_determines_the_integer prec tzl kw a b :
  int_in_limit a = true -> int_in_limit b = true -> a <> b ->
  exists pa pb,
    _make_hash prec tzl kw (VInt a) = Ok [_single_digest "int" pa]
    /\ _make_hash prec tzl kw (VInt b) = Ok [_single_digest "int" pb]
    /\ pa <> pb.
Proof.
  intros _ _ Hab.
  exists (map byte_of_N (format_int a)), (map byte_of_N (format_int b)).
  cbn [_make_hash]. rewrite !hash_integral_Ok.
  split; [reflexivity|]. split; [reflexivity|].
  intros H. apply Hab, format_int_inj.
  apply map_byte_of_N_inj; auto using format_int_ascii.
Qed.

Lemma X10_witness :
  exists pa pb,
    _make_hash 14 (fun _ => 0) no_kwargs (VInt 10)
    = Ok [_single_digest "int" pa]
    /\ _make_hash 14 (fun _ => 0) no_kwargs (VInt (-10))
       = Ok [_single_digest "int" pb]
    /\ pa <> pb.
Proof.
  apply (X10_int_payload_determines_the_integer 14 (fun _ => 0) no_kwargs);
    [vm_compute; reflexivity | vm_compute; reflexivity | lia].
Defined.

Lemma number_char_digit c : (48 <= c <= 57)%N -> number_char c = true.
Proof.
  intros [H1 H2]. unfold number_char.
  apply N.leb_le in H1, H2. now rewrite H1, H2.
Qed.

Lemma decimal_number_chars n :
  Forall (fun c => number_char c = true) (decimal n).
Proof.
  eapply Forall_impl; [|apply decimal_digits].
  intros c. apply number_char_digit.
Qed.

Lemma zeros_number_chars k :
  Forall (fun c => number_char c = true) (zeros k).
Proof.
  unfold zeros. apply Forall_forall. intros c Hc.
  apply repeat_spec in Hc. now subst.
Qed.

Lemma format_exponent_number_chars e :
  Forall (fun c => number_char c = true) (format_exponent e).
Proof.
  unfold format_exponent.
  constructor; [reflexivity|]. constructor.
  - destruct (e <? 0); reflexivity.
  - destruct (Z.abs e <? 10); [constructor; [reflexivity|]|];
      apply decimal_number_chars.
Qed.

Lemma format_g_finite_number_chars p n d :
  Forall (fun c => number_char c = true) (format_g_finite p n d).
Proof.
  unfold format_g_finite, dtoa.
  set (m := if 0 <=? p - 1 - floor_log10 n d then _ else _).
  destruct (if m =? 10 ^ p then _ else _) as [m' x'].
  pose proof (decimal_number_chars (strip_zeros (Z.to_nat p) m')) as Hd.
  set (digits := decimal (strip_zeros (Z.to_nat p) m')) in *.
  destruct ((x' + 1 <=? -4) || (p <? x' + 1)).
  - apply Forall_app. split; [now apply Forall_firstn|].
    apply Forall_app. split; [|apply format_exponent_number_chars].
    destruct (1 <? Z.of_nat (length digits)); [|constructor].
    constructor; [reflexivity | now apply Forall_skipn].
  - destruct (x' + 1 <=? 0).
    + constructor; [reflexivity|]. constructor; [reflexivity|].
      apply Forall_app. split; [apply zeros_number_chars | exact Hd].
    + destruct (Z.of_nat (length digits) <=? x' + 1).
      * apply Forall_app. split; [exact Hd | apply zeros_number_chars].
      * apply Forall_app. split; [now apply Forall_firstn|].
        constructor; [reflexivity | now apply Forall_skipn].
Qed.

(** The rendering of a float is made of digits, sign, point, exponent
    mark and the letters of [nan] and [inf]. *)
Lemma float_to_text_number_chars x prec :
  Forall (fun c => number_char c = true) (float_to_text x prec).
Proof.
  unfold float_to_text, format_g.
  assert (Hsign : forall s : bool,
             Forall (fun c => number_char c = true)
                    (if s then [45%N] else [])).
  { intros []; repeat constructor. }
  destruct x as [s|s| |s m e].
  - apply Forall_app. split; [apply Hsign | repeat constructor].
  - apply Forall_app. split; [apply Hsign | repeat constructor].
  - repeat constructor.
  - apply Forall_app. split; [apply Hsign|].
    destruct (0 <=? e); apply format_g_finite_number_chars.
Qed.

Lemma float_to_text_no_separator x prec : ~ In 33%N (float_to_text x prec).
Proof.
  intros H. pose proof (float_to_text_number_chars x prec) as HF.
  rewrite Forall_forall in HF. specialize (HF _ H). discriminate HF.
Qed.

Lemma app_separator_inj {A : Type} (c : A) (l1 l2 r1 r2 : list A) :
  ~ In c l1 -> ~ In c l2 ->
  l1 ++ c :: r1 = l2 ++ c :: r2 -> l1 = l2 /\ r1 = r2.
Proof.
  revert l2. induction l1 as [|x l1 IH]; intros [|y l2] H1 H2 H;
    cbn [app] in H.
  - injection H as H. now split.
  - injection H as Hc _. exfalso. apply H2. now left.
  - injection H as Hc _. exfalso. apply H1. now left.
  - injection H as Hxy H. subst y.
    destruct (IH l2) as [-> ->]; try assumption.
    + intros Hin. apply H1. now right.
    + intros Hin. apply H2. now right.
    + now split.
Qed.

(** X11. The payload of a complex number can be read in one way only:
    no rendering of a float contains the separator [!], so the payload
    determines the text of the real part and the text of the imaginary
    part. *)
Theorem X11_complex_payload_is_unambiguous prec tzl kw re im re' im' :
  _make_hash prec tzl kw (VComplex re im)
  = Ok [_single_digest "complex" (complex_payload prec re im)]
  /\ (complex_payload prec re im = complex_payload prec re' im' ->
      float_to_text re prec = float_to_text re' prec
      /\ float_to_text im prec = float_to_text im' prec).
Proof.
  assert (Hasc : forall x y,
             ascii_text (float_to_text x prec ++ 33%N :: float_to_text y prec)).
  { intros x y. apply Forall_app. split; [apply float_to_text_ascii|].
    constructor; [reflexivity | apply float_to_text_ascii]. }
  split.
  - cbn [_make_hash]. unfold hash_complex, complex_payload.
    now rewrite (encode_utf8_ascii _ (Hasc re im)).
  - unfold complex_payload. intros H.
    apply map_byte_of_N_inj in H; [|apply Hasc|apply Hasc].
    apply app_separator_inj in H; auto using float_to_text_no_separator.
Qed.

Lemma X11_witness :
  float_to_text float_one 14 = float_to_text float_one 14
  /\ float_to_text float_near_one 14 = float_to_text float_near_one 14.
Proof.
  apply (proj2 (X11_complex_payload_is_unambiguous
                  14 (fun _ => 0) no_kwargs
                  float_one float_near_one float_one float_near_one)).
  reflexivity.
Defined.

(** *** The two interpreter branches of the datetime handler *)

Lemma hash_datetime_branches prec tzl val :
  hash_datetime prec tzl val
  = (ts <- (if PY2 then timestamp_py2 val else Ok (timestamp_py3 tzl val)) ;;
     b <- encode_utf8 (float_to_text ts prec) ;;
     Ok [_single_digest "datetime" b]).
Proof. reflexivity. Qed.

(** X12. The branch of the datetime handler for Python 2 and the one for
    Python 3 compute the same timestamp, so the hash of a datetime is
    the same under both interpreters, whenever the Python 2 branch
    returns. It returns exactly when the wall clock moved to UTC stays
    within the years 1 to 9999; otherwise it raises [OverflowError],
    which the Python 3 branch never does. *)
Theorem X12_datetime_branches_agree tzl (val : datetime) :
  (forall t, timestamp_py2 val = Ok t -> t = timestamp_py3 tzl val)
  /\ (utc_wall_in_range val ->
      timestamp_py2 val = Ok (timestamp_py3 tzl val))
  /\ (~ utc_wall_in_range val -> timestamp_py2 val = Raise OverflowError).
Proof.
  assert (Hnaive : forall w,
            total_seconds (w - wall_microseconds (replace_tzinfo _EPOCH None))
            = total_seconds (w - wall_microseconds _EPOCH))
    by reflexivity.
  unfold timestamp_py3. rewrite timestamp_normalised.
  unfold timestamp_py2, utc_wall_in_range, instant, utcoffset,
    naive_sub_timedelta.
  destruct (tzinfo val) as [[[off|]]|]; cbn [tz_utcoffset bind].
  - destruct ((86400000000 <=? wall_microseconds val - off)
              && (wall_microseconds val - off <? 3652060 * 86400000000))
      eqn:E; cbn [bind].
    + apply andb_true_iff in E. destruct E as [E1 E2].
      apply Z.leb_le in E1. apply Z.ltb_lt in E2.
      split; [|split].
      * intros t H. apply Ok_inj in H. subst t. now rewrite Hnaive.
      * intros _. now rewrite Hnaive.
      * intros H. exfalso. apply H. split; assumption.
    + split; [|split].
      * intros t H. discriminate H.
      * intros [H1 H2]. apply Z.leb_le in H1. apply Z.ltb_lt in H2.
        rewrite H1, H2 in E. discriminate E.
      * reflexivity.
  - split; [|split].
    + intros t H. apply Ok_inj in H. subst t. rewrite Hnaive.
      apply (f_equal total_seconds). lia.
    + intros _. rewrite Hnaive. do 2 f_equal. lia.
    + intros H. exfalso. now apply H.
  - split; [|split].
    + intros t H. apply Ok_inj in H. subst t. rewrite Hnaive.
      apply (f_equal total_seconds). lia.
    + intros _. rewrite Hnaive. do 2 f_equal. lia.
    + intros H. exfalso. now apply H.
Qed.

Lemma X12_witness :
  timestamp_py2 sample_plus2 = Ok (timestamp_py3 (fun _ => 0) sample_plus2).
Proof.
  apply (proj1 (proj2 (X12_datetime_branches_agree (fun _ => 0) sample_plus2))).
  cbv [utc_wall_in_range utcoffset sample_plus2 tzinfo tz_utcoffset].
  split; [apply Z.leb_le | apply Z.ltb_lt]; vm_compute; reflexivity.
Defined.

(** *** Random strings *)

Lemma choice_In {rng : Type} (randbelow : rng -> nat -> nat * rng)
    s seq c s' :
  choice rng randbelow s seq = Some (c, s') -> In c seq.
Proof.
  unfold choice. destruct seq as [|x seq]; [discriminate|].
  destruct (randbelow s (length (x :: seq))) as [i s0].
  destruct (nth_error (x :: seq) i) as [c0|] eqn:E; [|discriminate].
  intros [= <- _]. now apply nth_error_In in E.
Qed.

Lemma random_chars_shape {rng : Type} (randbelow : rng -> nat -> nat * rng)
    n s allowed str s' :
  random_chars rng randbelow n s allowed = Some (str, s') ->
  length str = n /\ Forall (fun c => In c allowed) str.
Proof.
  revert s str s'. induction n as [|k IH]; intros s str s' H;
    cbn [random_chars] in H.
  - injection H as <- _. split; [reflexivity | constructor].
  - destruct (choice rng randbelow s allowed) as [[c s0]|] eqn:Ec;
      [|discriminate].
    destruct (random_chars rng randbelow k s0 allowed) as [[cs s1]|] eqn:Er;
      [|discriminate].
    injection H as <- _. destruct (IH _ _ _ Er) as [Hl Hf].
    split; [cbn [length]; now rewrite Hl|].
    constructor; [now apply choice_In in Ec | exact Hf].
Qed.

(** X13. A string that [get_random_string] returns has exactly [length]
    characters (none when [length] is negative), each of them one of
    [allowed_chars], whatever the generator draws. *)
Theorem X13_random_string_shape {rng : Type}
    (randbelow : rng -> nat -> nat * rng) (reseed : rng -> rng)
    (using_sysrandom : bool) s length allowed_chars str s' :
  get_random_string rng randbelow reseed using_sysrandom s length
                    allowed_chars = Some (str, s') ->
  Z.of_nat (List.length str) = Z.max 0 length
  /\ Forall (fun c => In c allowed_chars) str.
Proof.
  unfold get_random_string. intros H.
  apply random_chars_shape in H. destruct H as [Hl Hf].
  split; [lia | exact Hf].
Qed.

Lemma X13_witness :
  Z.of_nat (List.length (text_of_string "DEFGHIJKLMNO")) = Z.max 0 12
  /\ Forall (fun c => In c default_allowed_chars)
            (text_of_string "DEFGHIJKLMNO").
Proof.
  apply (X13_random_string_shape counter_randbelow (fun s => s) true
           29%nat 12 default_allowed_chars _ 41%nat).
  vm_compute. reflexivity.
Defined.

Lemma random_chars_succeeds {rng : Type}
    (randbelow : rng -> nat -> nat * rng) n s allowed :
  (forall s k, (0 < k)%nat -> (fst (randbelow s k) < k)%nat) ->
  allowed <> [] ->
  exists str s', random_chars rng randbelow n s allowed = Some (str, s').
Proof.
  intros Hr Ha. revert s. induction n as [|k IH]; intros s;
    cbn [random_chars]; [eauto|].
  unfold choice. destruct allowed as [|x allowed]; [contradiction|].
  specialize (Hr s (length (x :: allowed)) ltac:(cbn [length]; lia)).
  destruct (randbelow s (length (x :: allowed))) as [i s0]. cbn [fst] in Hr.
  destruct (nth_error (x :: allowed) i) as [c|] eqn:E.
  - destruct (IH s0) as (str & s' & ->). eauto.
  - apply nth_error_None in E. lia.
Qed.

(** X14. [get_random_string] fails, with the [IndexError] of
    [random.choice], exactly when it is asked for at least one character
    out of an empty alphabet, provided [_randbelow(n)] draws below [n].
    For a [length] of zero or less it returns the empty string without
    drawing. *)
Theorem X14_random_string_failure {rng : Type}
    (randbelow : rng -> nat -> nat * rng) (reseed : rng -> rng)
    (using_sysrandom : bool) s length allowed_chars :
  (forall s k, (0 < k)%nat -> (fst (randbelow s k) < k)%nat) ->
  (get_random_string rng randbelow reseed using_sysrandom s length
                     allowed_chars = None
   <-> 0 < length /\ allowed_chars = [])
  /\ (length <= 0 ->
      get_random_string rng randbelow reseed using_sysrandom s length
                        allowed_chars
      = Some ([], if using_sysrandom then s else reseed s)).
Proof.
  intros Hr. unfold get_random_string.
  set (s0 := if using_sysrandom then s else reseed s).
  split; [split|].
  - intros H. destruct allowed_chars as [|x allowed_chars].
    + split; [|reflexivity].
      destruct (Z.to_nat length) eqn:E; [discriminate H | lia].
    + destruct (random_chars_succeeds randbelow (Z.to_nat length) s0
                  (x :: allowed_chars) Hr ltac:(discriminate))
        as (str & s' & E).
      rewrite E in H. discriminate H.
  - intros [Hl ->]. destruct (Z.to_nat length) eqn:E; [lia|].
    reflexivity.
  - intros Hl. replace (Z.to_nat length) with 0%nat by lia. reflexivity.
Qed.

Lemma X14_witness :
  get_random_string nat counter_randbelow (fun s => s) false 7%nat 3 [] = None
  <-> 0 < 3 /\ @nil N = [].
Proof.
  assert (Hr : forall s k : nat,
             (0 < k)%nat -> (fst (counter_randbelow s k) < k)%nat).
  { intros s k Hk. cbn [counter_randbelow fst].
    apply Nat.mod_upper_bound. lia. }
  exact (proj1 (X14_random_string_failure counter_randbelow (fun s => s)
                  false 7%nat 3 [] Hr)).
Defined.

(** *** The payload of a text *)

Ltac n_arith := zify; Z.to_euclidean_division_equations; lia.

Lemma read_utf8_char c bs rest :
  utf8_char c = Ok bs ->
  read_utf8 (bs ++ rest) = option_map (cons c) (read_utf8 rest).
Proof.
  unfold utf8_char.
  destruct (c <? 128)%N eqn:E1.
  { intros H. apply Ok_inj in H. subst bs. apply N.ltb_lt in E1.
    cbn [app read_utf8]. rewrite byte_of_N_to_N by lia.
    replace (c <? 128)%N with true by (symmetry; apply N.ltb_lt; lia).
    reflexivity. }
  apply N.ltb_ge in E1.
  destruct (c <? 2048)%N eqn:E2.
  { intros H. apply Ok_inj in H. subst bs. apply N.ltb_lt in E2.
    cbn [app read_utf8]. rewrite !byte_of_N_to_N by n_arith.
    replace (192 + c / 64 <? 128)%N with false
      by (symmetry; apply N.ltb_ge; n_arith).
    replace (192 + c / 64 <? 192)%N with false
      by (symmetry; apply N.ltb_ge; n_arith).
    replace (192 + c / 64 <? 224)%N with true
      by (symmetry; apply N.ltb_lt; n_arith).
    replace ((192 + c / 64 - 192) * 64 + (128 + c mod 64 - 128))%N with c
      by n_arith.
    reflexivity. }
  apply N.ltb_ge in E2.
  destruct ((55296 <=? c) && (c <=? 57343))%N; [discriminate|].
  destruct (c <? 65536)%N eqn:E4.
  { intros H. apply Ok_inj in H. subst bs. apply N.ltb_lt in E4.
    cbn [app read_utf8]. rewrite !byte_of_N_to_N by n_arith.
    replace (224 + c / 4096 <? 128)%N with false
      by (symmetry; apply N.ltb_ge; n_arith).
    replace (224 + c / 4096 <? 192)%N with false
      by (symmetry; apply N.ltb_ge; n_arith).
    replace (224 + c / 4096 <? 224)%N with false
      by (symmetry; apply N.ltb_ge; n_arith).
    replace (224 + c / 4096 <? 240)%N with true
      by (symmetry; apply N.ltb_lt; n_arith).
    replace ((224 + c / 4096 - 224) * 4096
             + (128 + (c / 64) mod 64 - 128) * 64
             + (128 + c mod 64 - 128))%N with c by n_arith.
    reflexivity. }
  apply N.ltb_ge in E4.
  destruct (c <? 1114112)%N eqn:E5; [|discriminate].
  intros H. apply Ok_inj in H. subst bs. apply N.ltb_lt in E5.
  cbn [app read_utf8]. rewrite !byte_of_N_to_N by n_arith.
  replace (240 + c / 262144 <? 128)%N with false
    by (symmetry; apply N.ltb_ge; n_arith).
  replace (240 + c / 262144 <? 192)%N with false
    by (symmetry; apply N.ltb_ge; n_arith).
  replace (240 + c / 262144 <? 224)%N with false
    by (symmetry; apply N.ltb_ge; n_arith).
  replace (240 + c / 262144 <? 240)%N with false
    by (symmetry; apply N.ltb_ge; n_arith).
  replace ((240 + c / 262144 - 240) * 262144
           + (128 + (c / 4096) mod 64 - 128) * 4096
           + (128 + (c / 64) mod 64 - 128) * 64
           + (128 + c mod 64 - 128))%N with c by n_arith.
  reflexivity.
Qed.

Lemma encode_utf8_cons c s :
  encode_utf8 (c :: s)
  = (bc <- utf8_char c ;; bs <- encode_utf8 s ;; Ok (bc ++ bs)).
Proof.
  unfold encode_utf8. cbn [map collect].
  destruct (utf8_char c); cbn [bind]; [|reflexivity].
  destruct (collect (map utf8_char s)); reflexivity.
Qed.

(** Reading back what [encode_utf8] gives returns the text. *)
Lemma read_utf8_encode_utf8 s b :
  encode_utf8 s = Ok b -> read_utf8 b = Some s.
Proof.
  revert b. induction s as [|c s IH]; intros b H.
  - apply Ok_inj in H. now subst b.
  - rewrite encode_utf8_cons in H.
    apply bind_inv_Ok in H. destruct H as (bc & Hc & H).
    apply bind_inv_Ok in H. destruct H as (bs & Hs & H).
    apply Ok_inj in H. subst b.
    now rewrite (read_utf8_char c bc bs Hc), (IH bs Hs).
Qed.

(** X15. The payload that a text hands to the leaf digest under tag
    "str" is its UTF-8 encoding, which can be read back: no other text
    has the same payload. *)
Theorem X15_text_payload_determines_the_text prec tzl kw s b :
  encode_utf8 s = Ok b ->
  _make_hash prec tzl kw (VStr s) = Ok [_single_digest "str" b]
  /\ read_utf8 b = Some s
  /\ (forall s', encode_utf8 s' = Ok b -> s' = s).
Proof.
  intros H. pose proof (read_utf8_encode_utf8 _ _ H) as R.
  split; [|split; [exact R|]].
  - cbn [_make_hash]. unfold hash_text. now rewrite H.
  - intros s' H'. pose proof (read_utf8_encode_utf8 _ _ H') as R'.
    congruence.
Qed.

Lemma X15_witness :
  read_utf8 [xc3; xa9; xe2; x82; xac; xf0; x9f; x98; x80]
  = Some [233; 8364; 128512]%N.
Proof.
  apply (proj1 (proj2 (X15_text_payload_determines_the_text
                         14 (fun _ => 0) no_kwargs
                         [233; 8364; 128512]%N
                         [xc3; xa9; xe2; x82; xac; xf0; x9f; x98; x80]
                         eq_refl))).
Defined.

(** *** The payload of a UUID *)

Lemma byte_of_Z_value w :
  Z.of_N (Byte.to_N (Blake2b.byte_of_Z w)) = w mod 256.
Proof.
  unfold Blake2b.byte_of_Z.
  change 255 with (Z.ones 8). rewrite Z.land_ones by lia.
  change (2 ^ 8) with 256.
  pose proof (Z.mod_pos_bound w 256 ltac:(lia)) as Hb.
  fold (byte_of_N (Z.to_N (w mod 256))).
  rewrite byte_of_N_to_N by lia. lia.
Qed.

(** Packing the bytes of [le_bytes] back gives the number, up to the
    width. *)
Lemma le_word_le_bytes n w :
  Blake2b.le_word (Blake2b.le_bytes n w) = w mod 2 ^ (8 * Z.of_nat n).
Proof.
  revert w. induction n as [|n IH]; intros w.
  - cbn [Blake2b.le_bytes Blake2b.le_word]. change (2 ^ (8 * Z.of_nat 0)) with 1.
    now rewrite Z.mod_1_r.
  - cbn [Blake2b.le_bytes Blake2b.le_word].
    rewrite byte_of_Z_value, IH, Z.shiftr_div_pow2 by lia.
    change (2 ^ 8) with 256.
    replace (8 * Z.of_nat (S n)) with (8 + 8 * Z.of_nat n) by lia.
    rewrite Z.pow_add_r by lia. change (2 ^ 8) with 256.
    rewrite Z.rem_mul_r; [reflexivity | lia |].
    apply Z.pow_pos_nonneg; lia.
Qed.

(** X16. The payload of a UUID is its 16 bytes, and two different UUIDs
    (integers below 2^128) have different payloads. *)
Theorem X16_uuid_payload_determines_the_uuid prec tzl kw a b :
  0 <= a < 2 ^ 128 -> 0 <= b < 2 ^ 128 -> a <> b ->
  _make_hash prec tzl kw (VUUID a) = Ok [_single_digest "uuid" (uuid_bytes a)]
  /\ length (uuid_bytes a) = 16%nat
  /\ uuid_bytes a <> uuid_bytes b.
Proof.
  intros Ha Hb Hab. split; [reflexivity|]. split.
  - unfold uuid_bytes. now rewrite length_rev, le_bytes_length.
  - unfold uuid_bytes. intros H.
    apply (f_equal (@rev byte)) in H. rewrite !rev_involutive in H.
    apply (f_equal Blake2b.le_word) in H. rewrite !le_word_le_bytes in H.
    change (2 ^ (8 * Z.of_nat 16)) with (2 ^ 128) in H.
    rewrite !Z.mod_small in H by assumption. contradiction.
Qed.

Lemma X16_witness :
  uuid_bytes 1 <> uuid_bytes (2 ^ 127).
Proof.
  apply (X16_uuid_payload_determines_the_uuid 14 (fun _ => 0) no_kwargs
           1 (2 ^ 127)); lia.
Defined.

(** *** Whole numbers as floats *)

Lemma decimal_fuel_acc fuel n acc :
  decimal_fuel fuel n acc = decimal_fuel fuel n [] ++ acc.
Proof.
  revert n acc. induction fuel as [|k IH]; intros n acc; [reflexivity|].
  cbn [decimal_fuel]. destruct (n <? 10); [reflexivity|].
  rewrite (IH (n / 10) (_ :: acc)), (IH (n / 10) [_]).
  now rewrite <- app_assoc.
Qed.

Lemma decimal_fuel_more (f g : nat) n :
  0 <= n < 2 ^ Z.of_nat f -> (1 <= f <= g)%nat ->
  decimal_fuel g n [] = decimal_fuel f n [].
Proof.
  revert g n. induction f as [|k IH]; intros g n Hn Hfg; [lia|].
  destruct g as [|j]; [lia|]. cbn [decimal_fuel].
  destruct (n <? 10) eqn:E; [reflexivity|]. apply Z.ltb_ge in E.
  rewrite (decimal_fuel_acc j), (decimal_fuel_acc k). f_equal.
  rewrite Nat2Z.inj_succ, Z.pow_succ_r in Hn by lia.
  assert (Hk : (1 <= k)%nat).
  { destruct k; [|lia]. change (2 ^ Z.of_nat 0) with 1 in Hn. lia. }
  apply IH; [|lia].
  split; [apply Z.div_pos; lia|].
  apply Z.div_lt_upper_bound; lia.
Qed.

Lemma decimal_small n :
  0 <= n < 10 -> decimal n = [(48 + Z.to_N n)%N].
Proof.
  intros Hn. unfold decimal. cbn [decimal_fuel].
  replace (n <? 10) with true by (symmetry; apply Z.ltb_lt; lia).
  now rewrite Z.mod_small by lia.
Qed.

Lemma decimal_step n :
  10 <= n -> decimal n = decimal (n / 10) ++ [(48 + Z.to_N (n mod 10))%N].
Proof.
  intros Hn. unfold decimal at 1. cbn [decimal_fuel].
  replace (n <? 10) with false by (symmetry; apply Z.ltb_ge; lia).
  rewrite decimal_fuel_acc. f_equal. unfold decimal.
  assert (Hq : 0 < n / 10) by (apply Z.div_str_pos; lia).
  assert (Hl : Z.log2 (n / 10) < Z.log2 n).
  { apply Z.log2_lt_pow2; [lia|].
    pose proof (Z.log2_spec n ltac:(lia)) as [_ Hhi].
    rewrite Z.pow_succ_r in Hhi by apply Z.log2_nonneg.
    apply Z.div_lt_upper_bound; lia. }
  apply decimal_fuel_more.
  - split; [lia|]. rewrite Nat2Z.inj_succ, Z2Nat.id by apply Z.log2_nonneg.
    apply Z.log2_spec. lia.
  - pose proof (Z.log2_nonneg (n / 10)). lia.
Qed.

Lemma zeros_succ u : 0 <= u -> zeros (u + 1) = zeros u ++ [48%N].
Proof.
  intros Hu. unfold zeros.
  replace (Z.to_nat (u + 1)) with (S (Z.to_nat u)) by lia.
  cbn [repeat]. apply repeat_cons.
Qed.

(** A number ending in [u] zeros: its digits, then the zeros. *)
Lemma decimal_mul_pow10 r (u : nat) :
  0 < r -> decimal (r * 10 ^ Z.of_nat u) = decimal r ++ zeros (Z.of_nat u).
Proof.
  intros Hr. induction u as [|u IH].
  - change (10 ^ Z.of_nat 0) with 1. rewrite Z.mul_1_r.
    unfold zeros. cbn [Z.to_nat Z.of_nat repeat]. now rewrite app_nil_r.
  - assert (Hp : 0 < 10 ^ Z.of_nat u) by (apply Z.pow_pos_nonneg; lia).
    rewrite Nat2Z.inj_succ, Z.pow_succ_r by lia.
    replace (r * (10 * 10 ^ Z.of_nat u)) with (r * 10 ^ Z.of_nat u * 10)
      by lia.
    rewrite decimal_step by nia.
    rewrite Z.div_mul, Z.mod_mul by lia.
    rewrite IH. unfold Z.succ. rewrite zeros_succ by lia.
    now rewrite <- app_assoc.
Qed.

(** The number of digits of [decimal n]. *)
Lemma decimal_length (x : nat) n :
  10 ^ Z.of_nat x <= n < 10 ^ Z.of_nat (S x) ->
  length (decimal n) = S x.
Proof.
  revert n. induction x as [|x IH]; intros n Hn.
  - change (10 ^ Z.of_nat 0) with 1 in Hn.
    change (10 ^ Z.of_nat 1) with 10 in Hn.
    now rewrite decimal_small by lia.
  - assert (Hp : 0 < 10 ^ Z.of_nat x) by (apply Z.pow_pos_nonneg; lia).
    rewrite !Nat2Z.inj_succ, !Z.pow_succ_r in Hn by lia.
    rewrite decimal_step by lia. rewrite length_app. cbn [length].
    rewrite IH; [lia|].
    rewrite Nat2Z.inj_succ, Z.pow_succ_r by lia.
    split; [apply Z.div_le_lower_bound; lia|].
    apply Z.div_lt_upper_bound; lia.
Qed.

Lemma strip_zeros_spec fuel m :
  0 < m < 10 ^ Z.of_nat fuel ->
  exists t : nat,
    m = strip_zeros fuel m * 10 ^ Z.of_nat t
    /\ 0 < strip_zeros fuel m
    /\ strip_zeros fuel m mod 10 <> 0.
Proof.
  revert m. induction fuel as [|k IH]; intros m Hm.
  - change (10 ^ Z.of_nat 0) with 1 in Hm. lia.
  - cbn [strip_zeros]. destruct (m mod 10 =? 0) eqn:E.
    + apply Z.eqb_eq in E.
      replace (0 <? m) with true by (symmetry; apply Z.ltb_lt; lia).
      cbn [andb].
      pose proof (Z.div_mod m 10 ltac:(lia)) as Hd.
      rewrite Nat2Z.inj_succ, Z.pow_succ_r in Hm by lia.
      destruct (IH (m / 10)) as (t & Ht & Hpos & Hmod); [lia|].
      exists (S t). rewrite Nat2Z.inj_succ, Z.pow_succ_r by lia.
      split; [|split; assumption]. lia.
    + cbn [andb]. apply Z.eqb_neq in E. exists 0%nat.
      change (10 ^ Z.of_nat 0) with 1. split; [lia|]. split; [lia | exact E].
Qed.

Lemma pow10_divides_not (r : Z) (t s : nat) k :
  r mod 10 <> 0 -> k * 10 ^ Z.of_nat s = r * 10 ^ Z.of_nat t -> (s <= t)%nat.
Proof.
  intros Hr H. destruct (Nat.le_gt_cases s t) as [|Hlt]; [assumption|].
  exfalso. apply Hr.
  assert (Hp : 0 < 10 ^ Z.of_nat t) by (apply Z.pow_pos_nonneg; lia).
  replace (Z.of_nat s) with (Z.of_nat t + Z.of_nat (S (s - t - 1))) in H
    by lia.
  rewrite Z.pow_add_r, Nat2Z.inj_succ, Z.pow_succ_r in H by lia.
  assert (E : r = k * 10 ^ Z.of_nat (s - t - 1) * 10) by nia.
  rewrite E. apply Z.mod_mul. lia.
Qed.

Lemma round_half_even_multiple q d : 0 < d -> round_half_even (q * d) d = q.
Proof.
  intros Hd. unfold round_half_even. cbv zeta.
  assert (Hm : (q * d) mod d = 0) by (apply Z.mod_mul; lia).
  assert (Hq : q * d / d = q) by (apply Z.div_mul; lia).
  rewrite Hm, Hq.
  assert (Hc : (2 * 0 ?= d) = Lt) by (apply Z.compare_lt_iff; lia).
  now rewrite Hc.
Qed.

(** The digits and the decimal point of a whole number below [10 ^ p]:
    its decimal digits without the trailing zeros, and their number with
    the zeros. *)
Lemma dtoa_whole p k d :
  0 < d -> 0 < k < 10 ^ p ->
  exists (r : Z) (u : nat),
    dtoa p (k * d) d = (decimal r, Z.of_nat (length (decimal r)) + Z.of_nat u)
    /\ 0 < r /\ k = r * 10 ^ Z.of_nat u
    /\ Z.of_nat (length (decimal r)) + Z.of_nat u <= p.
Proof.
  intros Hd [Hk Hkp].
  assert (Hp : 0 < p).
  { destruct (Z.lt_trichotomy p 0) as [H|[H|H]]; [|subst p|exact H].
    - rewrite Z.pow_neg_r in Hkp by assumption. lia.
    - change (10 ^ 0) with 1 in Hkp. lia. }
  unfold dtoa.
  pose proof (floor_log10_spec (k * d) d ltac:(nia) Hd) as Hx.
  cbn zeta in Hx. set (x := floor_log10 (k * d) d) in *.
  assert (Hx' : 0 <= x /\ 10 ^ x <= k < 10 ^ (x + 1)).
  { destruct Hx as [[H0 [Hlo Hhi]]|[H0 [Hlo _]]].
    - split; [assumption|]. split; nia.
    - exfalso.
      assert (HP : 0 < 10 ^ (- x - 1)) by (apply Z.pow_pos_nonneg; lia).
      assert (H1 : 1 <= k * 10 ^ (- x - 1)) by nia.
      assert (H2 : d * 1 <= d * (k * 10 ^ (- x - 1)))
        by (apply Z.mul_le_mono_nonneg_l; lia).
      lia. }
  clear Hx. destruct Hx' as [Hx0 [Hlo Hhi]].
  assert (Hxp : x < p).
  { apply (Z.pow_lt_mono_r_iff 10); [lia | lia | lia]. }
  set (s := p - 1 - x).
  replace (0 <=? s) with true by (symmetry; apply Z.leb_le; lia).
  assert (Hs : 0 < 10 ^ s) by (apply Z.pow_pos_nonneg; lia).
  replace (k * d * 10 ^ s) with (k * 10 ^ s * d) by lia.
  rewrite round_half_even_multiple by assumption.
  assert (Hpow : 10 ^ p = 10 ^ (x + 1) * 10 ^ s).
  { rewrite <- Z.pow_add_r by lia. f_equal. lia. }
  assert (Hm : 0 < k * 10 ^ s < 10 ^ p) by (rewrite Hpow; nia).
  replace (k * 10 ^ s =? 10 ^ p) with false by (symmetry; apply Z.eqb_neq; lia).
  destruct (strip_zeros_spec (Z.to_nat p) (k * 10 ^ s)) as (t & Ht & Hr & Hr10).
  { rewrite Z2Nat.id by lia. exact Hm. }
  set (r := strip_zeros (Z.to_nat p) (k * 10 ^ s)) in *.
  assert (Hst : (Z.to_nat s <= t)%nat).
  { apply (pow10_divides_not r t (Z.to_nat s) k Hr10).
    rewrite Z2Nat.id by lia. exact Ht. }
  exists r, (t - Z.to_nat s)%nat.
  assert (Hkr : k = r * 10 ^ Z.of_nat (t - Z.to_nat s)).
  { replace (Z.of_nat t) with (Z.of_nat (t - Z.to_nat s) + s) in Ht by lia.
    rewrite Z.pow_add_r in Ht by lia. nia. }
  assert (Hlen : Z.of_nat (length (decimal k)) = x + 1).
  { rewrite (decimal_length (Z.to_nat x)); [lia|].
    rewrite Nat2Z.inj_succ, Z2Nat.id by lia. split; assumption. }
  rewrite Hkr in Hlen at 1.
  rewrite decimal_mul_pow10, length_app in Hlen by assumption.
  unfold zeros in Hlen. rewrite repeat_length, Nat2Z.id in Hlen.
  split; [f_equal; lia|]. split; [assumption|]. split; [assumption|]. lia.
Qed.

(** ['%.{p}g'] of a whole number [k] with [0 < k < 10 ^ p], given as the
    fraction [k * d / d], writes the decimal digits of [k]. *)
Lemma format_g_finite_whole p k d :
  0 < d -> 0 < k < 10 ^ p -> format_g_finite p (k * d) d = decimal k.
Proof.
  intros Hd Hk. unfold format_g_finite.
  destruct (dtoa_whole p k d Hd Hk) as (r & u & -> & Hr & Hkr & Hp).
  set (nd := Z.of_nat (length (decimal r))) in *.
  assert (Hnd : 0 <= nd) by apply Nat2Z.is_nonneg.
  assert (H1 : 1 <= nd).
  { subst nd. destruct (decimal r) eqn:E; [|cbn [length]; lia].
    exfalso. pose proof (decimal_value r ltac:(lia)) as Hv.
    rewrite E in Hv. cbn in Hv. lia. }
  replace (nd + Z.of_nat u <=? -4) with false
    by (symmetry; apply Z.leb_gt; lia).
  replace (p <? nd + Z.of_nat u) with false
    by (symmetry; apply Z.ltb_ge; lia).
  cbn [orb].
  replace (nd + Z.of_nat u <=? 0) with false
    by (symmetry; apply Z.leb_gt; lia).
  replace (nd <=? nd + Z.of_nat u) with true
    by (symmetry; apply Z.leb_le; lia).
  replace (nd + Z.of_nat u - nd) with (Z.of_nat u) by lia.
  rewrite Hkr. now rewrite decimal_mul_pow10.
Qed.

Lemma float_to_text_whole prec x k :
  whole_float x k -> Z.abs k < 10 ^ Z.of_N prec ->
  float_to_text x prec = format_int k.
Proof.
  intros Hw Hk. unfold float_to_text, format_g, format_int. cbv beta zeta.
  destruct x as [s| | |s m e]; cbn [whole_float] in Hw; try contradiction.
  - destruct Hw as [-> ->]. reflexivity.
  - destruct Hw as [Hsign Hval].
    assert (Hp : Z.abs k < 10 ^ (if (prec =? 0)%N then 1 else Z.of_N prec)).
    { destruct (prec =? 0)%N eqn:E; [|assumption].
      apply N.eqb_eq in E. subst prec. change (10 ^ Z.of_N 0) with 1 in Hk.
      lia. }
    set (p := if (prec =? 0)%N then 1 else Z.of_N prec) in *.
    assert (Hbody : (if 0 <=? e then format_g_finite p (Z.pos m * 2 ^ e) 1
                     else format_g_finite p (Z.pos m) (2 ^ (- e)))
                    = decimal (Z.abs k)).
    { destruct (0 <=? e) eqn:E.
      - rewrite <- Hval. rewrite <- (Z.mul_1_r (Z.abs k)) at 1.
        apply format_g_finite_whole; lia.
      - apply Z.leb_gt in E. rewrite Hval.
        apply format_g_finite_whole; [apply Z.pow_pos_nonneg; lia|].
        destruct s; lia. }
    apply (f_equal (fun t => (if s then [45%N] else []) ++ t)) in Hbody.
    etransitivity; [exact Hbody|]. destruct s.
    + replace (k <? 0) with true by (symmetry; apply Z.ltb_lt; lia).
      rewrite Z.abs_neq by lia. reflexivity.
    + replace (k <? 0) with false by (symmetry; apply Z.ltb_ge; lia).
      rewrite Z.abs_eq by lia. reflexivity.
Qed.

(** X17. A float that is a whole number [k] of at most
    [AIIDA_FLOAT_PRECISION] digits is rendered as the integer [k] is,
    without point or exponent: the float and the integer hand the same
    bytes to the leaf digest and are told apart by the type tag alone. *)
Theorem X17_whole_float_rendered_as_integer
    (prec : N) (tzl : datetime -> Z) (kw : kwargs) (x : spec_float) (k : Z) :
  whole_float x k -> Z.abs k < 10 ^ Z.of_N prec ->
  float_to_text x prec = format_int k
  /\ exists b : bytes,
       encode_utf8 (format_int k) = Ok b
       /\ _make_hash prec tzl kw (VFloat x) = Ok [_single_digest "float" b]
       /\ _make_hash prec tzl kw (VInt k) = Ok [_single_digest "int" b].
Proof.
  intros Hw Hk. pose proof (float_to_text_whole prec x k Hw Hk) as Ht.
  split; [exact Ht|].
  exists (map byte_of_N (format_int k)).
  split; [apply encode_utf8_ascii, format_int_ascii|].
  split.
  - cbn [_make_hash]. rewrite hash_real_Ok, Ht. reflexivity.
  - cbn [_make_hash]. apply hash_integral_Ok.
Qed.

Lemma X17_witness :
  float_to_text (S754_finite false 6755399441055744 (-51)) 14
  = text_of_string "3".
Proof.
  apply (proj1 (X17_whole_float_rendered_as_integer
                  14 (fun _ => 0) no_kwargs
                  (S754_finite false 6755399441055744 (-51)) 3
                  (conj eq_refl eq_refl) eq_refl)).
Defined.
